(** * cdes: CSV ingestion, normalisation, distance and ranking

    A shallow embedding of the data pipeline of the school-distance
    calculator:

    - [src/utils/csvParser.ts]: [parseCSV], [parseCSVLine],
      [csvRowsToSchools];
    - [src/utils/distance.ts]: [calculateDistance], [toRadians];
    - [src/App.tsx]: [calculateDistances], [applyFilters].

    JavaScript strings are sequences of UTF-16 code units, objects used as
    dictionaries are finite maps, numbers are IEEE-754 binary64 values. *)

From Stdlib Require Import ZArith NArith List Bool Ascii String Lia.
From Stdlib Require Import DecimalString.
From Stdlib Require Import Sorting.Sorted Sorting.Permutation.
From Stdlib Require Import Floats.SpecFloat.
From stdpp Require Import base option list gmap.

Local Open Scope N_scope.

(** ** Strings *)

Module JsString.

(** A JavaScript string: its UTF-16 code units. *)
Definition jsstring := list N.

(** Literals: the source files are UTF-8, so a literal is decoded from its
    UTF-8 bytes (sequences of one to three bytes, the Basic Multilingual
    Plane, which covers every literal of the program). *)
Fixpoint utf8_decode (bytes : list N) : jsstring :=
  match bytes with
  | [] => []
  | b1 :: rest =>
      if b1 <? 128 then b1 :: utf8_decode rest
      else if b1 <? 224 then
        match rest with
        | b2 :: rest' => ((b1 mod 32) * 64 + b2 mod 64) :: utf8_decode rest'
        | [] => [b1]
        end
      else
        match rest with
        | b2 :: b3 :: rest' =>
            ((b1 mod 16) * 4096 + (b2 mod 64) * 64 + b3 mod 64)
              :: utf8_decode rest'
        | _ => b1 :: rest
        end
  end.

Definition lit (s : string) : jsstring :=
  utf8_decode (List.map N_of_ascii (list_ascii_of_string s)).

Definition char_newline : N := 10.
Definition char_dquote : N := 34.
Definition char_squote : N := 39.
Definition char_comma : N := 44.
Definition char_semicolon : N := 59.

(** [WhiteSpace] and [LineTerminator] code points of ECMAScript, the ones
    [String.prototype.trim] removes. *)
Definition isWhiteSpace (c : N) : bool :=
  ((9 <=? c) && (c <=? 13)) || (c =? 32) || (c =? 160) || (c =? 5760)
  || ((8192 <=? c) && (c <=? 8202)) || (c =? 8232) || (c =? 8233)
  || (c =? 8239) || (c =? 8287) || (c =? 12288) || (c =? 65279).

Fixpoint trimStart (s : jsstring) : jsstring :=
  match s with
  | [] => []
  | c :: s' => if isWhiteSpace c then trimStart s' else s
  end.

Definition trimEnd (s : jsstring) : jsstring := rev (trimStart (rev s)).

(** [s.trim()] *)
Definition trim (s : jsstring) : jsstring := trimEnd (trimStart s).

(** [s.split(sep)] for a separator of one code unit; the result is never
    empty: the empty string splits into one empty piece. *)
Fixpoint split (sep : N) (s : jsstring) : list jsstring :=
  match s with
  | [] => [[]]
  | c :: s' =>
      if c =? sep then [] :: split sep s'
      else match split sep s' with
           | [] => [[c]]
           | w :: ws => (c :: w) :: ws
           end
  end.

(** [s.replace(re, empty)] for the global pattern [re] matching one
    single-quote or double-quote character. *)
Definition isQuote (c : N) : bool := (c =? char_squote) || (c =? char_dquote).

Definition stripQuotes (s : jsstring) : jsstring :=
  List.filter (fun c => negb (isQuote c)) s.

(** [parts.join(sep)] *)
Fixpoint join (sep : jsstring) (parts : list jsstring) : jsstring :=
  match parts with
  | [] => []
  | [p] => p
  | p :: ps => p ++ sep ++ join sep ps
  end.

(** [s.includes(t)] *)
Fixpoint isPrefix (t s : jsstring) : bool :=
  match t, s with
  | [], _ => true
  | _ :: _, [] => false
  | a :: t', b :: s' => (a =? b) && isPrefix t' s'
  end.

Fixpoint includes (s t : jsstring) : bool :=
  isPrefix t s ||
  match s with
  | [] => false
  | _ :: s' => includes s' t
  end.

End JsString.
Import JsString.

(** ** The tabular parser ([csvParser.ts]) *)

(** [CSVRow]: an object indexed by strings. *)
Abbreviation CSVRow := (gmap jsstring jsstring).

(** The loop of [parseCSVLine], with its three locals as accumulators. *)
Fixpoint parseCSVLine_from (line : jsstring) (separator : jsstring)
    (result : list jsstring) (current : jsstring) (inQuotes : bool)
    : list jsstring :=
  match line with
  | [] => result ++ [current]
  | char :: rest =>
      if char =? char_dquote then
        parseCSVLine_from rest separator result current (negb inQuotes)
      else if bool_decide ([char] = separator) && negb inQuotes then
        parseCSVLine_from rest separator (result ++ [current]) [] inQuotes
      else
        parseCSVLine_from rest separator result (current ++ [char]) inQuotes
  end.

Definition parseCSVLine (line : jsstring) (separator : jsstring) : list jsstring :=
  parseCSVLine_from line separator [] [] false.

(** The key [__proto__]: on an ordinary object, assigning a string to it
    is ignored by the inherited setter, and no own property appears. *)
Definition proto_key : jsstring := lit "__proto__".

(** [row[header] = value] *)
Definition assign (row : CSVRow) (header value : jsstring) : CSVRow :=
  if bool_decide (header = proto_key) then row else <[header := value]> row.

(** The [headers.forEach] of [parseCSV]; it is only run when both lists
    have the same length. *)
Fixpoint fillRow (row : CSVRow) (headers values : list jsstring) : CSVRow :=
  match headers, values with
  | header :: hs, value :: vs =>
      fillRow (assign row header (stripQuotes (trim value))) hs vs
  | _, _ => row
  end.

Definition parseCSV (csvText : jsstring) : list CSVRow :=
  let lines := split char_newline (trim csvText) in
  if (length lines <? 2)%nat then []
  else
    let headers :=
      List.map (fun h => stripQuotes (trim h))
               (split char_semicolon (List.hd [] lines)) in
    omap (fun line =>
            let values := parseCSVLine line [char_semicolon] in
            if (length values =? length headers)%nat
            then Some (fillRow ∅ headers values)
            else None)
         (List.tl lines).

(** ** Numbers *)

Module JsNumber.

Local Open Scope Z_scope.

(** A JavaScript number: an IEEE-754 binary64 value ([prec = 53],
    [emax = 1024]), with one NaN. *)
Definition number := spec_float.

Definition prec : Z := 53.
Definition emax : Z := 1024.

Definition add : number -> number -> number := SFadd prec emax.
Definition sub : number -> number -> number := SFsub prec emax.
Definition mul : number -> number -> number := SFmul prec emax.
Definition div : number -> number -> number := SFdiv prec emax.
Definition neg : number -> number := SFopp.
Definition sqrt : number -> number := SFsqrt prec emax.
Definition ltb : number -> number -> bool := SFltb.
Definition leb : number -> number -> bool := SFleb.

Definition NaN : number := S754_nan.
Definition Infinity : number := S754_infinity false.

(** The number denoted by an integer literal. *)
Definition ofZ (z : Z) : number := binary_normalize prec emax z 0 false.

(** [Math.PI], the double 0x400921FB54442D18. *)
Definition Math_PI : number := S754_finite false 7074237752028440 (-51).

(** [isNaN(x)] *)
Definition isNaN (x : number) : bool :=
  match x with
  | S754_nan => true
  | _ => false
  end.

(** [Number.isFinite(x)] *)
Definition isFinite (x : number) : bool :=
  match x with
  | S754_zero _ | S754_finite _ _ _ => true
  | _ => false
  end.

(** [x || 0] on a number: NaN, +0 and -0 are falsy. *)
Definition orZero (x : number) : number :=
  match x with
  | S754_nan | S754_zero _ => S754_zero false
  | _ => x
  end.

(** The double nearest to [(-1)^s * m * 10^e10] (ties to even), the value
    of a decimal literal with digits [m] and decimal exponent [e10]. *)
Definition ofDecimal (s : bool) (m : Z) (e10 : Z) : number :=
  match m with
  | Zpos p =>
      if 0 <=? e10 then
        binary_round prec emax s (p * Z.to_pos (10 ^ e10)) 0
      else
        let '(q, e, l) :=
          SFdiv_core_binary prec emax (Zpos p) 0 (10 ^ (- e10)) 0 in
        binary_round_aux prec emax s q e l
  | _ => S754_zero s
  end.

Import JsString.
Local Open Scope N_scope.

Definition isDigit (c : N) : bool := (48 <=? c) && (c <=? 57).

(** The longest run of decimal digits at the head of [s], as digit values,
    and what follows it. *)
Fixpoint takeDigits (s : jsstring) : list N * jsstring :=
  match s with
  | [] => ([], [])
  | c :: s' =>
      if isDigit c then
        let '(ds, rest) := takeDigits s' in ((c - 48) :: ds, rest)
      else ([], s)
  end.

Definition digitsValue (ds : list N) : Z :=
  fold_left (fun acc d => (10 * acc + Z.of_N d)%Z) ds 0%Z.

(** An optional sign. *)
Definition takeSign (s : jsstring) : bool * jsstring :=
  match s with
  | 45 :: s' => (true, s')
  | 43 :: s' => (false, s')
  | _ => (false, s)
  end.

(** The [ExponentPart] at the head of [s], when there is a complete one:
    [e] or [E], an optional sign, at least one digit. *)
Definition takeExponent (s : jsstring) : Z :=
  match s with
  | c :: s' =>
      if (c =? 101) || (c =? 69) then
        let '(sg, s'') := takeSign s' in
        match takeDigits s'' with
        | ([], _) => 0%Z
        | (ds, _) => if sg then (- digitsValue ds)%Z else digitsValue ds
        end
      else 0%Z
  | [] => 0%Z
  end.

(** [parseFloat(s)]: leading white space is skipped, then the longest
    prefix that is a [StrDecimalLiteral] is read; NaN when there is none. *)
Definition parseFloat (s : jsstring) : number :=
  let '(sg, body) := takeSign (trimStart s) in
  if isPrefix (lit "Infinity") body then S754_infinity sg
  else
    let '(ip, rest) := takeDigits body in
    let '(fp, rest') :=
      match rest with
      | 46 :: r => takeDigits r
      | _ => ([], rest)
      end in
    match ip, fp with
    | [], [] => NaN
    | _, _ =>
        ofDecimal sg (digitsValue (ip ++ fp))
                  (takeExponent rest' - Z.of_nat (length fp))
    end.

End JsNumber.
Import JsNumber.

(** ** The data model ([types.ts]) *)

(** [School].  A property that is missing and a property that holds
    [undefined] are both [None]; [name] is optional here because the
    objects built at run time do not all carry it. *)
Module School.
Record t := mk {
  id : nat;
  name : option jsstring;
  uai : option jsstring;
  address : option jsstring;
  latitude : number;
  longitude : number;
  type : option jsstring;
  distance : option number
}.
End School.

Record Position := {
  pos_latitude : number;
  pos_longitude : number;
  pos_address : option jsstring
}.

(** ** The entity normaliser ([csvRowsToSchools]) *)

(** Truthiness of [row[key]]: a string is truthy unless empty, [undefined]
    is falsy. *)
Definition truthy (v : option jsstring) : bool :=
  match v with
  | Some (_ :: _) => true
  | _ => false
  end.

(** [key in row] *)
Definition hasKey (row : CSVRow) (key : jsstring) : bool :=
  bool_decide (is_Some (row !! key)).

(** [parseFloat(v)] on a value that may be [undefined], which is read as
    the string "undefined". *)
Definition parseFloatOf (v : option jsstring) : number :=
  parseFloat (default (lit "undefined") v).

Definition nameKey : jsstring := lit "appellation_officielle".
Definition positionKey : jsstring := lit "position".
Definition uaiKey : jsstring := lit "uai".
Definition sectorKey : jsstring := lit "secteur".
Definition communeKey : jsstring := lit "libelle_commune".
Definition departmentKey : jsstring := lit "libelle_departement".
Definition ipsKey : jsstring := lit "ips".

Definition genericNameKeys : list jsstring :=
  List.map lit ["name"; "nom"; "Name"; "Nom"; "NAME"; "NOM";
                "etablissement"; "ecole"; "school"]%string.
Definition genericLatKeys : list jsstring :=
  List.map lit ["latitude"; "lat"; "Latitude"; "Lat"; "LATITUDE"; "LAT"]%string.
Definition genericLonKeys : list jsstring :=
  List.map lit ["longitude"; "lon"; "lng"; "Longitude"; "Lon"; "Lng";
                "LONGITUDE"; "LON"; "LNG"]%string.
Definition genericAddressKeys : list jsstring :=
  List.map lit ["address"; "adresse"; "Address"; "Adresse"; "ADDRESS";
                "ADRESSE"]%string.
Definition genericTypeKeys : list jsstring :=
  List.map lit ["type"; "Type"; "TYPE"; "category"; "Category";
                "CATEGORY"]%string.

(** The test that selects the college format: both required columns hold
    a non-empty value. *)
Definition collegeFormat (row : CSVRow) : bool :=
  truthy (row !! nameKey) && truthy (row !! positionKey).

(** The fallback branch, for generic column names.  Its object literal
    lists the property [uai] four times and [name] never; the last [uai]
    initialiser, [row[uaiKey]], is the one that stays. *)
Definition genericRowToSchool (row : CSVRow) (index : nat) : option School.t :=
  let latKey := List.find (hasKey row) genericLatKeys in
  let lonKey := List.find (hasKey row) genericLonKeys in
  let nameKeyGeneric := List.find (hasKey row) genericNameKeys in
  let addressKey := List.find (hasKey row) genericAddressKeys in
  let typeKey := List.find (hasKey row) genericTypeKeys in
  match latKey, lonKey, nameKeyGeneric with
  | Some latKey, Some lonKey, Some _ =>
      let latitude := parseFloatOf (row !! latKey) in
      let longitude := parseFloatOf (row !! lonKey) in
      if isNaN latitude || isNaN longitude then None
      else
        Some {| School.id := index;
                School.name := None;
                School.uai := row !! uaiKey;
                School.latitude := latitude;
                School.longitude := longitude;
                School.address := addressKey ≫= (row !!.);
                School.type := typeKey ≫= (row !!.);
                School.distance := None |}
  | _, _, _ => None
  end.

(** The branch for the college format. *)
Definition collegeRowToSchool (row : CSVRow) (index : nat) : option School.t :=
  let positionStr := default [] (row !! positionKey) in
  match split char_comma positionStr with
  | [part0; part1] =>
      let latitude := parseFloat (trim part0) in
      let longitude := parseFloat (trim part1) in
      if isNaN latitude || isNaN longitude then None
      else
        let addressParts :=
          (if truthy (row !! communeKey)
           then [default [] (row !! communeKey)] else [])
          ++ (if truthy (row !! departmentKey)
              then [default [] (row !! departmentKey)] else []) in
        let address :=
          if (0 <? length addressParts)%nat
          then Some (join (lit ", ") addressParts) else None in
        let type :=
          if truthy (row !! sectorKey)
          then default [] (row !! sectorKey) else lit "Établissement" in
        let type :=
          if truthy (row !! ipsKey)
          then type ++ lit " (IPS: " ++ default [] (row !! ipsKey) ++ lit ")"
          else type in
        Some {| School.id := index;
                School.name := row !! nameKey;
                School.uai := None;
                School.latitude := latitude;
                School.longitude := longitude;
                School.address := address;
                School.type := Some type;
                School.distance := None |}
  | _ => None
  end.

(** The callback of [rows.map]: [null] is [None]. *)
Definition rowToSchool (row : CSVRow) (index : nat) : option School.t :=
  if collegeFormat row then collegeRowToSchool row index
  else genericRowToSchool row index.

(** [rows.map(callback).filter(school => school !== null)] *)
Definition csvRowsToSchools (rows : list CSVRow) : list School.t :=
  omap (fun s => s) (imap (fun index row => rowToSchool row index) rows).

(** ** The run-time library *)

(** The built-ins whose results the language leaves to the implementation
    ([Math.sin], [Math.cos] and [Math.atan2] are implementation-approximated)
    or that depend on Unicode tables. *)
Class Engine := {
  Math_sin : number -> number;
  Math_cos : number -> number;
  Math_atan2 : number -> number -> number;
  Number_toFixed : number -> nat -> jsstring;
  String_toLowerCase : jsstring -> jsstring
}.

(** [Array.prototype.sort(comparefn)] is stable; a negative result of
    [comparefn(a, b)] puts [a] before [b].  It is modelled by the stable
    insertion sort: an element moves past exactly the elements that the
    comparator puts strictly before it. *)
Section ArraySort.
Context {A : Type} (comparefn : A -> A -> number).

Fixpoint Array_insert (x : A) (l : list A) : list A :=
  match l with
  | [] => [x]
  | y :: l' =>
      if ltb (comparefn y x) (S754_zero false)
      then y :: Array_insert x l'
      else x :: y :: l'
  end.

Definition Array_sort (l : list A) : list A :=
  List.fold_right Array_insert [] l.
End ArraySort.

(** ** The distance engine ([distance.ts]) *)

Section Distance.
Context `{Engine}.

Definition toRadians (degrees : number) : number :=
  mul degrees (div Math_PI (ofZ 180)).

Definition calculateDistance (lat1 lon1 lat2 lon2 : number) : number :=
  let R := ofZ 6371 in
  let dLat := toRadians (sub lat2 lat1) in
  let dLon := toRadians (sub lon2 lon1) in
  let a :=
    add (mul (Math_sin (div dLat (ofZ 2))) (Math_sin (div dLat (ofZ 2))))
        (mul (mul (mul (Math_cos (toRadians lat1))
                       (Math_cos (toRadians lat2)))
                  (Math_sin (div dLon (ofZ 2))))
             (Math_sin (div dLon (ofZ 2)))) in
  let c := mul (ofZ 2) (Math_atan2 (sqrt a) (sqrt (sub (ofZ 1) a))) in
  let distance := mul R c in
  parseFloat (Number_toFixed distance 2).
End Distance.

(** [Math.sin(d / 2)] for a difference [d] of two coordinates in degrees,
    the factor that occurs four times in [calculateDistance]. *)
Definition halfSin `{Engine} (degrees : number) : number :=
  Math_sin (div (toRadians degrees) (ofZ 2)).

(** ** Ranking and filtering ([App.tsx]) *)

Inductive SectorFilter := SectorAll | SectorPublic | SectorPrivate.
Inductive LevelFilter := LevelAll | LevelCollege | LevelLycee.

(** The state of the [App] component that the pipeline reads and writes. *)
Record AppState := {
  schools : list School.t;
  filteredSchools : list School.t;
  userPosition : option Position;
  sectorFilter : SectorFilter;
  levelFilter : LevelFilter
}.

Section App.
Context `{Engine}.

(** The callback of the level filter, run when [level] is not [all]. *)
Definition levelCallback (level : LevelFilter) (school : School.t) : bool :=
  if negb (truthy (School.name school)) then false
  else
    let schoolName := String_toLowerCase (default [] (School.name school)) in
    match level with
    | LevelCollege =>
        includes schoolName (lit "collège") || includes schoolName (lit "college")
    | LevelLycee =>
        includes schoolName (lit "lycée") || includes schoolName (lit "lycee")
    | LevelAll => true
    end.

(** The callback of the sector filter, run when [sector] is not [all]. *)
Definition sectorCallback (sector : SectorFilter) (school : School.t) : bool :=
  if negb (truthy (School.type school)) then false
  else
    let schoolType := String_toLowerCase (default [] (School.type school)) in
    match sector with
    | SectorPublic => includes schoolType (lit "public")
    | SectorPrivate =>
        includes schoolType (lit "privé") || includes schoolType (lit "private")
    | SectorAll => true
    end.

(** The local [filtered] of [applyFilters] when it reaches [setFilteredSchools]. *)
Definition filtered (schoolList : list School.t) (sector : SectorFilter)
    (level : LevelFilter) : list School.t :=
  let filtered := schoolList in
  let filtered :=
    match level with
    | LevelAll => filtered
    | _ => List.filter (levelCallback level) filtered
    end in
  match sector with
  | SectorAll => filtered
  | _ => List.filter (sectorCallback sector) filtered
  end.

Definition applyFilters (st : AppState) (schoolList : list School.t)
    (sector : SectorFilter) (level : LevelFilter) : AppState :=
  {| schools := schools st;
     filteredSchools := filtered schoolList sector level;
     userPosition := userPosition st;
     sectorFilter := sectorFilter st;
     levelFilter := levelFilter st |}.

(** [{...school, distance: calculateDistance(...)}] *)
Definition withDistance (position : Position) (school : School.t) : School.t :=
  {| School.id := School.id school;
     School.name := School.name school;
     School.uai := School.uai school;
     School.address := School.address school;
     School.latitude := School.latitude school;
     School.longitude := School.longitude school;
     School.type := School.type school;
     School.distance :=
       Some (calculateDistance (pos_latitude position) (pos_longitude position)
                               (School.latitude school) (School.longitude school)) |}.

(** [a.distance || 0] *)
Definition distanceOrZero (school : School.t) : number :=
  match School.distance school with
  | Some d => orZero d
  | None => S754_zero false
  end.

(** The comparator given to [sort]. *)
Definition byDistance (a b : School.t) : number :=
  sub (distanceOrZero a) (distanceOrZero b).

(** The array [schoolsWithDistances] after it has been sorted. *)
Definition schoolsWithDistances (schoolList : list School.t)
    (position : Position) : list School.t :=
  Array_sort byDistance (List.map (withDistance position) schoolList).

Definition calculateDistances (st : AppState) (schoolList : list School.t)
    (position : Position) : AppState :=
  let updatedSchools := schoolsWithDistances schoolList position in
  applyFilters
    {| schools := updatedSchools;
       filteredSchools := filteredSchools st;
       userPosition := userPosition st;
       sectorFilter := sectorFilter st;
       levelFilter := levelFilter st |}
    updatedSchools (sectorFilter st) (levelFilter st).
End App.

(** ** Predicates used in the statements *)

(** The first, respectively last, code unit of [s] is white space. *)
Definition startsWithWS (s : jsstring) : bool :=
  match s with
  | c :: _ => isWhiteSpace c
  | [] => false
  end.

Definition endsWithWS (s : jsstring) : bool := startsWithWS (rev s).

(** The data lines of a text: what [parseCSV] iterates over from index 1. *)
Definition dataLines (csvText : jsstring) : list jsstring :=
  List.tl (split char_newline (trim csvText)).

(** The key [key a] is a binary64 value other than NaN. *)
Definition keyIsNumber {A : Type} (key : A → number) (a : A) : Prop :=
  valid_binary prec emax (key a) = true ∧ isNaN (key a) = false.

(** [key a <= key b] *)
Definition keyOrdered {A : Type} (key : A → number) (a b : A) : Prop :=
  leb (key a) (key b) = true.

(** The distance of a ranked institution read as a number: a missing
    distance is [undefined], which compares like NaN. *)
Definition distanceOf (school : School.t) : number :=
  default NaN (School.distance school).

(** [a.distance <= b.distance] *)
Definition notFarther (a b : School.t) : bool :=
  leb (distanceOf a) (distanceOf b).

(** [a.distance < b.distance] *)
Definition nearer (a b : School.t) : bool :=
  ltb (distanceOf a) (distanceOf b).

(** [school.distance == d] *)
Definition atDistance (d : number) (school : School.t) : bool :=
  SFeqb (distanceOf school) d.

(** Every value of every mapping the parser returns is free of both quote
    characters and of white space at its ends. *)
Definition values_clean_and_trimmed : Prop :=
  ∀ (csvText : jsstring) (row : CSVRow) (k v : jsstring),
    row ∈ parseCSV csvText → row !! k = Some v →
    (char_dquote ∉ v) ∧ (char_squote ∉ v)
    ∧ startsWithWS v = false ∧ endsWithWS v = false.

(** ** Inputs of the examples *)

(** Header [a;b], one data row whose first field is quoted and holds the
    delimiter. *)
Definition quotedDelimiterText : jsstring :=
  lit "a;b" ++ [char_newline; char_dquote] ++ lit "x;y" ++ [char_dquote]
  ++ lit ";z".

(** Header [a], one data row: a cell in apostrophes with a space inside. *)
Definition apostropheSpaceText : jsstring :=
  lit "a" ++ [char_newline] ++ lit "' x'".

(** Header [nom], one data row with an apostrophe inside a word. *)
Definition apostropheWordText : jsstring :=
  lit "nom" ++ [char_newline] ++ lit "l'école".

(** The mapping {nom: École B, lat: 45.0, lon: 5.0}. *)
Definition genericExampleRow : CSVRow :=
  {[ lit "nom" := lit "École B"; lit "lat" := lit "45.0"; lit "lon" := lit "5.0" ]}.

(** The same mapping with a registry code under [uai]. *)
Definition genericUaiRow : CSVRow :=
  <[ lit "uai" := lit "0590248Z" ]> genericExampleRow.

(** A mapping of the college format with a registry code under [uai]. *)
Definition collegeUaiRow : CSVRow :=
  {[ lit "appellation_officielle" := lit "École A";
     lit "position" := lit "48.8,2.3";
     lit "secteur" := lit "public";
     lit "uai" := lit "0590248Z" ]}.

(** Mappings whose latitude is written [Infinity]. *)
Definition genericInfinityRow : CSVRow :=
  {[ lit "nom" := lit "École B"; lit "lat" := lit "Infinity"; lit "lon" := lit "5.0" ]}.

Definition collegeInfinityRow : CSVRow :=
  {[ lit "appellation_officielle" := lit "École A";
     lit "position" := lit "Infinity,2.3" ]}.

(** ** Statements of the specification that the code does not meet *)

(** The ids of a parse result are 0, 1, 2, ... in output order. *)
Definition ids_dense : Prop :=
  ∀ rows : list CSVRow,
    School.id <$> csvRowsToSchools rows
    = seq 0 (length (csvRowsToSchools rows)).

(** No institution of the generic format carries an external code. *)
Definition generic_has_no_uai : Prop :=
  ∀ (row : CSVRow) (index : nat) (school : School.t),
    collegeFormat row = false →
    rowToSchool row index = Some school →
    School.uai school = None.

(** An institution is only produced with two finite coordinates. *)
Definition coordinates_finite : Prop :=
  ∀ (row : CSVRow) (index : nat) (school : School.t),
    rowToSchool row index = Some school →
    isFinite (School.latitude school) = true
    ∧ isFinite (School.longitude school) = true.

(** ** A sample engine *)

(** An engine with first-order approximations, good for small angles:
    the sine of [x] is [x], its cosine is [1 - x * x / 2], and the angle of
    the point [(x, y)] is [y / x].  [toFixed] prints the decimal expansion
    rounded half up (without the switch to exponent notation that the
    language makes from 10^21 on); [toLowerCase] covers ASCII and
    Latin-1. *)
Module SampleEngine.

Definition decimalOf (n : Z) : jsstring :=
  lit (NilZero.string_of_uint (N.to_uint (Z.to_N n))).

Definition toFixed (x : number) (fractionDigits : nat) : jsstring :=
  match x with
  | S754_nan => lit "NaN"
  | S754_infinity s => (if s then lit "-" else []) ++ lit "Infinity"
  | S754_zero _ =>
      lit "0" ++ (if (0 <? fractionDigits)%nat
                  then lit "." ++ replicate fractionDigits 48 else [])
  | S754_finite s m e =>
      let scaled := (Zpos m * 10 ^ Z.of_nat fractionDigits)%Z in
      let n :=
        if (0 <=? e)%Z then (scaled * 2 ^ e)%Z
        else ((2 * scaled + 2 ^ (- e)) / (2 * 2 ^ (- e)))%Z in
      let digits := decimalOf n in
      let digits :=
        replicate (S fractionDigits - length digits) 48 ++ digits in
      let whole := take (length digits - fractionDigits) digits in
      let fraction := drop (length digits - fractionDigits) digits in
      (if s then lit "-" else [])
      ++ whole ++ (if (0 <? fractionDigits)%nat then lit "." ++ fraction else [])
  end.

Definition toLowerCase (s : jsstring) : jsstring :=
  List.map (fun c =>
              if ((65 <=? c) && (c <=? 90))
                 || ((192 <=? c) && (c <=? 222) && negb (c =? 215))
              then c + 32 else c) s.

Definition engine : Engine := {|
  Math_sin := fun x => x;
  Math_cos := fun x => sub (ofZ 1) (div (mul x x) (ofZ 2));
  Math_atan2 := fun y x => div y x;
  Number_toFixed := toFixed;
  String_toLowerCase := toLowerCase
|}.

End SampleEngine.

(** [generateSampleCSV()]: the sample file of the program, in the college
    format. *)
Definition generateSampleCSV : jsstring :=
  lit "rentree_scolaire;uai;secteur;ips;position;appellation_officielle;libelle_academie;code_departement;libelle_departement;code_commune;libelle_commune
2023-2024;0590248Z;public;91.0;50.3498386310885,3.2842295962456927;Établissement Louis Pasteur;Lille;59;Nord;59574;Somain
2023-2024;0593131H;privé sous contrat;103.6;50.62928989778109,3.107342498302463;Établissement privé Saint Joseph;Lille;59;Nord;59350;Lille
2023-2024;0594297A;public;80.3;50.412707862648475,3.0535806066000877;Établissement Victor Hugo;Lille;59;Nord;59028;Auby
2023-2024;0594298B;public;99.9;50.354996614883795,3.0620302418370793;Établissement André Malraux;Lille;59;Nord;59329;Lambres-lez-Douai
2023-2024;0594304H;public;89.1;50.45062444729204,3.432100353409098;Établissement Marie Curie;Lille;59;Nord;59526;Saint-Amand-les-Eaux
2023-2024;0620039F;public;88.4;50.08837894809274,2.9812501868009518;Établissement Jacques-Yves Cousteau;Lille;62;Pas-de-Calais;62117;Bertincourt".

(** The institutions of the sample file, and the positions of two of
    them. *)
Definition sampleSchools : list School.t :=
  csvRowsToSchools (parseCSV generateSampleCSV).

Definition somain : Position :=
  {| pos_latitude := parseFloat (lit "50.3498386310885");
     pos_longitude := parseFloat (lit "3.2842295962456927");
     pos_address := None |}.

Definition lille : Position :=
  {| pos_latitude := parseFloat (lit "50.62928989778109");
     pos_longitude := parseFloat (lit "3.107342498302463");
     pos_address := None |}.

(** ** The rest of the pipeline *)

(** *** Proximity bands ([distance.ts], [SchoolList.tsx]) *)

Definition getDistanceColor (distance : number) : jsstring :=
  if ltb distance (ofZ 1) then lit "text-green-600"
  else if ltb distance (ofZ 5) then lit "text-blue-600"
  else if ltb distance (ofZ 10) then lit "text-yellow-600"
  else lit "text-red-600".

Definition getDistanceBadgeColor (distance : number) : jsstring :=
  if ltb distance (ofZ 1) then lit "bg-green-100 text-green-800"
  else if ltb distance (ofZ 5) then lit "bg-blue-100 text-blue-800"
  else if ltb distance (ofZ 10) then lit "bg-yellow-100 text-yellow-800"
  else lit "bg-red-100 text-red-800".

(** Truthiness of [school.distance]: [undefined], NaN, +0 and -0 are
    falsy. *)
Definition truthyDistance (school : School.t) : bool :=
  match School.distance school with
  | Some (S754_finite _ _ _) | Some (S754_infinity _) => true
  | _ => false
  end.

(** The label of the badge in the list of [SchoolList], the nested
    conditional on [school.distance]. *)
Definition distanceLabel (school : School.t) : jsstring :=
  if truthyDistance school && ltb (distanceOf school) (ofZ 1)
  then lit "Très proche"
  else if truthyDistance school && ltb (distanceOf school) (ofZ 5)
  then lit "Proche"
  else if truthyDistance school && ltb (distanceOf school) (ofZ 10)
  then lit "Moyennement éloigné"
  else lit "Éloigné".

(** The four bands, as the label, the text colour and the badge colour
    that go together. *)
Definition bands : list (jsstring * jsstring * jsstring) :=
  [ (lit "Très proche", lit "text-green-600", lit "bg-green-100 text-green-800");
    (lit "Proche", lit "text-blue-600", lit "bg-blue-100 text-blue-800");
    (lit "Moyennement éloigné", lit "text-yellow-600",
     lit "bg-yellow-100 text-yellow-800");
    (lit "Éloigné", lit "text-red-600", lit "bg-red-100 text-red-800") ].

(** *** The classification of the map ([Map.tsx]) *)

Inductive SchoolType := TypeCollege | TypeLycee | TypeOther.

Definition getSchoolType `{Engine} (schoolName : option jsstring) : SchoolType :=
  if negb (truthy schoolName) then TypeOther
  else
    let name := String_toLowerCase (default [] schoolName) in
    if includes name (lit "collège") || includes name (lit "college")
    then TypeCollege
    else if includes name (lit "lycée") || includes name (lit "lycee")
    then TypeLycee
    else TypeOther.

(** *** Coordinates typed by hand ([PositionInput]) *)

(** [handleCoordinatesSubmit]: the position handed to [onPositionSet],
    if any. *)
Definition handleCoordinatesSubmit (latitude longitude : jsstring)
    : option Position :=
  let lat := parseFloat latitude in
  let lon := parseFloat longitude in
  if negb (isNaN lat) && negb (isNaN lon)
     && leb (neg (ofZ 90)) lat && leb lat (ofZ 90)
     && leb (neg (ofZ 180)) lon && leb lon (ofZ 180)
  then Some {| pos_latitude := lat; pos_longitude := lon; pos_address := None |}
  else None.

(** [handleAddressSubmit] *)
Definition handleAddressSubmit (address : jsstring) : option Position :=
  if truthy (Some (trim address))
  then Some {| pos_latitude := S754_zero false;
               pos_longitude := S754_zero false;
               pos_address := Some (trim address) |}
  else None.

(** *** The handlers of [App] *)

(** The component's state with its two status fields. *)
Record AppView := {
  appState : AppState;
  isLoading : bool;
  error : option jsstring
}.

(** A handler that ran to its [finally] block with state [st] and has
    thrown nothing, respectively has thrown an [Error] with [message]. *)
Definition finished (st : AppState) : AppView :=
  {| appState := st; isLoading := false; error := None |}.

Definition failed (st : AppState) (message : jsstring) : AppView :=
  {| appState := st; isLoading := false; error := Some message |}.

(** The initial state: the values given to [useState]. *)
Definition initialState : AppState :=
  {| schools := [];
     filteredSchools := [];
     userPosition := None;
     sectorFilter := SectorAll;
     levelFilter := LevelAll |}.

Section Handlers.
Context `{Engine}.

(** The result of [geocodeAddress]: a latitude, a longitude and a display
    name, or [null]. *)
Variable geocodeAddress : jsstring → option (number * number * option jsstring).

Definition handleSectorFilterChange (st : AppState) (newFilter : SectorFilter)
    : AppState :=
  applyFilters
    {| schools := schools st;
       filteredSchools := filteredSchools st;
       userPosition := userPosition st;
       sectorFilter := newFilter;
       levelFilter := levelFilter st |}
    (schools st) newFilter (levelFilter st).

Definition handleLevelFilterChange (st : AppState) (newFilter : LevelFilter)
    : AppState :=
  applyFilters
    {| schools := schools st;
       filteredSchools := filteredSchools st;
       userPosition := userPosition st;
       sectorFilter := sectorFilter st;
       levelFilter := newFilter |}
    (schools st) (sectorFilter st) newFilter.

(** [handleFileSelect], from the text of the file on. *)
Definition handleFileSelect (st : AppState) (text : jsstring) : AppView :=
  let csvRows := parseCSV text in
  if (length csvRows =? 0)%nat then
    failed st (lit "Le fichier CSV ne contient aucune donnée valide")
  else
    let parsedSchools := csvRowsToSchools csvRows in
    if (length parsedSchools =? 0)%nat then
      failed st (lit "Aucun établissement valide trouvé dans le fichier. Vérifiez le format des données.")
    else
      let st' := {| schools := parsedSchools;
                    filteredSchools := filteredSchools st;
                    userPosition := userPosition st;
                    sectorFilter := sectorFilter st;
                    levelFilter := levelFilter st |} in
      match userPosition st with
      | Some position => finished (calculateDistances st' parsedSchools position)
      | None =>
          finished (applyFilters st' parsedSchools (sectorFilter st) (levelFilter st))
      end.

(** [position.latitude === 0] *)
Definition isZero (x : number) : bool :=
  match x with
  | S754_zero _ => true
  | _ => false
  end.

Definition handlePositionSet (st : AppState) (position : Position) : AppView :=
  let located (finalPosition : Position) : AppView :=
    let st' := {| schools := schools st;
                  filteredSchools := filteredSchools st;
                  userPosition := Some finalPosition;
                  sectorFilter := sectorFilter st;
                  levelFilter := levelFilter st |} in
    if (0 <? length (schools st))%nat
    then finished (calculateDistances st' (schools st) finalPosition)
    else finished {| schools := schools st;
                     filteredSchools := schools st;
                     userPosition := Some finalPosition;
                     sectorFilter := sectorFilter st;
                     levelFilter := levelFilter st |} in
  if truthy (pos_address position)
     && isZero (pos_latitude position) && isZero (pos_longitude position)
  then
    match geocodeAddress (default [] (pos_address position)) with
    | None => failed st (lit "Impossible de géolocaliser cette adresse")
    | Some (latitude, longitude, displayName) =>
        located {| pos_latitude := latitude;
                   pos_longitude := longitude;
                   pos_address := displayName |}
    end
  else located position.

(** The effect that loads the initial file, from its text on.  It calls
    [applyFilters] twice, the second time without a level: the callback
    of the level filter then runs with [level] undefined and keeps every
    institution that has a name.  [setSchools] is not called. *)
Definition loadInitialData (st : AppState) (text : jsstring) : AppView :=
  let csvRows := parseCSV text in
  if (length csvRows =? 0)%nat then
    failed st (lit "Le fichier lille.csv ne contient aucune donnée valide")
  else
    let parsedSchools := csvRowsToSchools csvRows in
    if (length parsedSchools =? 0)%nat then
      failed st (lit "Aucun établissement valide trouvé dans le fichier lille.csv")
    else
      let named := List.filter (fun school => truthy (School.name school))
                               parsedSchools in
      finished
        {| schools := schools st;
           filteredSchools :=
             match sectorFilter st with
             | SectorAll => named
             | _ => List.filter (sectorCallback (sectorFilter st)) named
             end;
           userPosition := userPosition st;
           sectorFilter := sectorFilter st;
           levelFilter := levelFilter st |}.
End Handlers.

(** The invariant of the state: the list shown is the list of all
    institutions with the current filters applied. *)
Definition consistent `{Engine} (st : AppState) : Prop :=
  filteredSchools st = filtered (schools st) (sectorFilter st) (levelFilter st).

(** *** The export ([SchoolList.tsx]) *)

Definition natToString (n : nat) : jsstring :=
  lit (NilZero.string_of_uint (Nat.to_uint n)).

Definition exportHeader : jsstring :=
  lit "Rang,Nom,UAI,Distance (km),Latitude,Longitude,Adresse,Type".

Section ExportFile.
(** The conversion of a number to a string in a template. *)
Variable Number_toString : number → jsstring.

(** One line of the export; a missing name is printed as [undefined]. *)
Definition exportRow (index : nat) (school : School.t) : jsstring :=
  natToString (index + 1) ++ lit ","
  ++ [char_dquote] ++ default (lit "undefined") (School.name school)
  ++ [char_dquote] ++ lit ","
  ++ [char_dquote] ++ default [] (School.uai school) ++ [char_dquote] ++ lit ","
  ++ Number_toString (distanceOrZero school) ++ lit ","
  ++ Number_toString (School.latitude school) ++ lit ","
  ++ Number_toString (School.longitude school) ++ lit ","
  ++ [char_dquote] ++ default [] (School.address school) ++ [char_dquote]
  ++ lit ","
  ++ [char_dquote] ++ default [] (School.type school) ++ [char_dquote].

(** [exportResults]: the content of the file offered for download, none
    when there is no institution. *)
Definition exportResults (schools : list School.t) : option jsstring :=
  if (length schools =? 0)%nat then None
  else Some (join [char_newline] (exportHeader :: imap exportRow schools)).
End ExportFile.

(** ** More predicates used in the statements *)

(** The header cells of a text, as [parseCSV] names the columns. *)
Definition headersOf (csvText : jsstring) : list jsstring :=
  List.map (fun h => stripQuotes (trim h))
           (split char_semicolon (List.hd [] (split char_newline (trim csvText)))).

Definition char_cr : N := 13.

(** The institution [school] with the id [index]. *)
Definition withId (index : nat) (school : School.t) : School.t :=
  {| School.id := index;
     School.name := School.name school;
     School.uai := School.uai school;
     School.address := School.address school;
     School.latitude := School.latitude school;
     School.longitude := School.longitude school;
     School.type := School.type school;
     School.distance := School.distance school |}.

(** The number of occurrences of a code unit. *)
Definition countChar (c : N) (s : jsstring) : nat :=
  length (List.filter (N.eqb c) s).

(** The text without its double quotes. *)
Definition withoutDquotes (s : jsstring) : jsstring :=
  List.filter (fun c => negb (c =? char_dquote)) s.

(** The test that the two filters amount to; the distance has no part in
    it. *)
Definition passes `{Engine} (sector : SectorFilter) (level : LevelFilter)
    (school : School.t) : bool :=
  match level with
  | LevelAll => true
  | _ => levelCallback level school
  end
  && match sector with
     | SectorAll => true
     | _ => sectorCallback sector school
     end.

(** The ids, used as keys of the list items and of the markers, are
    pairwise distinct in both lists of the state. *)
Definition ids_distinct (st : AppState) : Prop :=
  NoDup (School.id <$> schools st) ∧ NoDup (School.id <$> filteredSchools st).

(** ** Predicates and inputs of the amended statements *)

(** The text [before] ends inside a double-quoted region: it holds an odd
    number of double quotes. *)
Definition inQuotedRegion (before : jsstring) : bool :=
  Nat.odd (countChar char_dquote before).

(** A line with a quoted region in the middle of a field: a, a double
    quote, b;c, a double quote, d;e. *)
Definition midQuoteLine : jsstring :=
  lit "a" ++ [char_dquote] ++ lit "b;c" ++ [char_dquote] ++ lit "d;e".

(** Mappings whose longitude is written [-Infinity]. *)
Definition genericNegInfinityRow : CSVRow :=
  {[ lit "nom" := lit "École B"; lit "lat" := lit "45.0";
     lit "lon" := lit "-Infinity" ]}.

Definition collegeNegInfinityRow : CSVRow :=
  {[ lit "appellation_officielle" := lit "École A";
     lit "position" := lit "48.8,-Infinity" ]}.

(** What the language fixes for the built-ins at arguments that are not
    finite: the sine and the cosine of NaN and of an infinity are NaN, the
    angle of a point with a NaN coordinate is NaN, and NaN prints as
    NaN. *)
Definition conforming (E : Engine) : Prop :=
  (∀ x, isFinite x = false → Math_sin x = NaN)
  ∧ (∀ x, isFinite x = false → Math_cos x = NaN)
  ∧ (∀ y x, isNaN y || isNaN x = true → Math_atan2 y x = NaN)
  ∧ (∀ fractionDigits, Number_toFixed NaN fractionDigits = lit "NaN").

(** [Math.sin] is odd. *)
Definition sinOdd (E : Engine) : Prop :=
  ∀ x, Math_sin (neg x) = neg (Math_sin x).

(** The distance from [p] to [q] [==] the distance from [q] to [p], for
    every two coordinate pairs. *)
Definition distance_symmetric_eq : Prop :=
  ∀ E : Engine, sinOdd E → conforming E →
  ∀ lat1 lon1 lat2 lon2,
    SFeqb (calculateDistance lat1 lon1 lat2 lon2)
          (calculateDistance lat2 lon2 lat1 lon1) = true.

(** Ranking gives a permutation of its input with the distances set, in
    ascending order of distance, the institutions at one distance in their
    order of the input. *)
Definition ranking_ascending_stable : Prop :=
  ∀ E : Engine, conforming E →
  ∀ (schoolList : list School.t) (position : Position),
    let ranked := schoolsWithDistances schoolList position in
    ranked ≡ₚ withDistance position <$> schoolList
    ∧ Forall (fun school =>
                School.distance school
                = Some (calculateDistance
                          (pos_latitude position) (pos_longitude position)
                          (School.latitude school) (School.longitude school)))
             ranked
    ∧ StronglySorted (fun a b => notFarther a b = true) ranked
    ∧ ∀ d, List.filter (atDistance d) ranked
           = List.filter (atDistance d) (withDistance position <$> schoolList).

(** The sample engine made to follow the language at arguments that are
    not finite. *)
Module GuardedEngine.

Definition engine : Engine := {|
  Math_sin := fun x => if isFinite x then x else NaN;
  Math_cos := fun x =>
    if isFinite x then sub (ofZ 1) (div (mul x x) (ofZ 2)) else NaN;
  Math_atan2 := fun y x => if isNaN y || isNaN x then NaN else div y x;
  Number_toFixed := SampleEngine.toFixed;
  String_toLowerCase := SampleEngine.toLowerCase
|}.

End GuardedEngine.

(** Two mappings of the college format, the first with an infinite
    latitude. *)
Definition infinityThenFiniteRows : list CSVRow :=
  [collegeInfinityRow; collegeUaiRow].

(** * Properties *)

(** ** The tabular parser *)

Section ParserFacts.
Implicit Types (s t line cell : jsstring) (row : CSVRow).

Lemma trimStart_startsWithWS s : startsWithWS (trimStart s) = false.
Proof.
  induction s as [|c s IH]; simpl; [done|].
  destruct (isWhiteSpace c) eqn:E; [done|]. simpl. by rewrite E.
Qed.

(** White space is only dropped in front of a last code unit that is not
    white space. *)
Lemma trimStart_snoc s c :
  isWhiteSpace c = false → ∃ s', trimStart (s ++ [c]) = s' ++ [c].
Proof.
  intros Hc. induction s as [|d s [s' IH]]; simpl.
  - rewrite Hc. by exists [].
  - destruct (isWhiteSpace d); [by exists s'|]. by exists (d :: s).
Qed.

Lemma trim_startsWithWS s : startsWithWS (trim s) = false.
Proof.
  unfold trim, trimEnd.
  pose proof (trimStart_startsWithWS s) as Hs.
  destruct (trimStart s) as [|c u]; [done|]. simpl in Hs.
  simpl rev. destruct (trimStart_snoc (rev u) c Hs) as [s' ->].
  rewrite rev_app_distr. simpl. done.
Qed.

Lemma trim_endsWithWS s : endsWithWS (trim s) = false.
Proof.
  unfold endsWithWS, trim, trimEnd. rewrite rev_involutive.
  apply trimStart_startsWithWS.
Qed.

Lemma stripQuotes_spec s c : c ∈ stripQuotes s ↔ c ∈ s ∧ isQuote c = false.
Proof.
  unfold stripQuotes. rewrite !list_elem_of_In, filter_In.
  by rewrite negb_true_iff.
Qed.

Lemma stripQuotes_no_dquote s : char_dquote ∉ stripQuotes s.
Proof. rewrite stripQuotes_spec. by intros [_ ?]. Qed.

Lemma stripQuotes_no_squote s : char_squote ∉ stripQuotes s.
Proof. rewrite stripQuotes_spec. by intros [_ ?]. Qed.

(** Stripping changes nothing when there is no quote character. *)
Lemma stripQuotes_id s :
  char_dquote ∉ s → char_squote ∉ s → stripQuotes s = s.
Proof.
  intros Hd Hs. induction s as [|c s IH]; [done|].
  apply not_elem_of_cons in Hd as [Hd1 Hd2].
  apply not_elem_of_cons in Hs as [Hs1 Hs2].
  unfold stripQuotes in *. simpl.
  replace (isQuote c) with false.
  - simpl. by rewrite IH.
  - symmetry. unfold isQuote. apply orb_false_iff.
    split; apply N.eqb_neq; congruence.
Qed.

Lemma trimStart_suffix s : trimStart s `suffix_of` s.
Proof.
  induction s as [|c s IH]; simpl; [done|].
  destruct (isWhiteSpace c); [by apply suffix_cons_r|done].
Qed.

Lemma elem_of_trim s c : c ∈ trim s → c ∈ s.
Proof.
  unfold trim, trimEnd. intros Hin.
  apply list_elem_of_In, in_rev, list_elem_of_In in Hin.
  apply (λ H, elem_of_suffix _ _ _ H (trimStart_suffix _)) in Hin.
  apply list_elem_of_In, in_rev, list_elem_of_In in Hin.
  by apply (λ H, elem_of_suffix _ _ _ H (trimStart_suffix _)) in Hin.
Qed.

(** The fields [parseCSVLine] returns never hold a double quote: the
    loop drops each one it meets. *)
Lemma parseCSVLine_from_no_dquote line sep result current inQuotes :
  Forall (fun cell => char_dquote ∉ cell) result →
  char_dquote ∉ current →
  Forall (fun cell => char_dquote ∉ cell)
         (parseCSVLine_from line sep result current inQuotes).
Proof.
  revert result current inQuotes.
  induction line as [|char rest IH]; intros result current inQuotes Hr Hc; simpl.
  - apply Forall_app. split; [done|]. by constructor.
  - destruct (char =? char_dquote) eqn:Hq; [by apply IH|].
    apply N.eqb_neq in Hq.
    destruct (_ && _).
    + apply IH; [|by apply not_elem_of_nil].
      apply Forall_app. split; [done|]. by constructor.
    + apply IH; [done|].
      rewrite elem_of_app, list_elem_of_singleton. by intros [?|?].
Qed.

Lemma parseCSVLine_no_dquote line sep cell :
  cell ∈ parseCSVLine line sep → char_dquote ∉ cell.
Proof.
  intros Hin.
  assert (HF : Forall (fun cell => char_dquote ∉ cell) (parseCSVLine line sep)).
  { apply parseCSVLine_from_no_dquote; [constructor|apply not_elem_of_nil]. }
  rewrite Forall_forall in HF. by apply HF.
Qed.

(** Inside a quoted region every code unit but the double quote is
    appended to the current field. *)
Lemma parseCSVLine_from_quoted quoted rest sep result current :
  char_dquote ∉ quoted →
  parseCSVLine_from (quoted ++ char_dquote :: rest) sep result current true
  = parseCSVLine_from rest sep result (current ++ quoted) false.
Proof.
  revert current. induction quoted as [|c q IH]; intros current Hq; simpl.
  - by rewrite app_nil_r.
  - apply not_elem_of_cons in Hq as [Hc Hq].
    replace (c =? char_dquote) with false
      by (symmetry; apply N.eqb_neq; congruence).
    rewrite andb_false_r, IH by done. by rewrite <- app_assoc.
Qed.

(** What the loop returns only depends on the accumulators through the
    fields already closed and the field being read. *)
Lemma parseCSVLine_from_acc line sep result current inQuotes :
  parseCSVLine_from line sep result current inQuotes
  = match parseCSVLine_from line sep [] [] inQuotes with
    | [] => result ++ [current]
    | first :: others => result ++ (current ++ first) :: others
    end.
Proof.
  revert result current inQuotes.
  induction line as [|char rest IH]; intros result current inQuotes; simpl.
  - by rewrite app_nil_r.
  - destruct (char =? char_dquote); [apply IH|].
    destruct (_ && _).
    + rewrite (IH (result ++ [current]) []), (IH ([] ++ [[]]) []).
      destruct (parseCSVLine_from rest sep [] [] inQuotes); simpl;
        by rewrite <- ?app_assoc, ?app_nil_r.
    + rewrite (IH result (current ++ [char])), (IH [] ([] ++ [char])).
      destruct (parseCSVLine_from rest sep [] [] inQuotes); simpl;
        by rewrite <- ?app_assoc.
Qed.

(** Every value of a filled row is a trimmed and stripped cell. *)
Lemma fillRow_lookup row headers values k v :
  fillRow row headers values !! k = Some v →
  row !! k = Some v ∨ ∃ cell, cell ∈ values ∧ v = stripQuotes (trim cell).
Proof.
  revert row values.
  induction headers as [|h hs IH]; intros row [|c cs]; simpl; auto.
  intros Hl. apply IH in Hl as [Hl|(cell & Hin & ->)].
  - unfold assign in Hl. case_bool_decide; [by left|].
    destruct (decide (h = k)) as [->|Hne].
    + rewrite lookup_insert_eq in Hl. simplify_eq.
      right. exists c. split; [by left|done].
    + rewrite lookup_insert_ne in Hl by done. by left.
  - right. exists cell. split; [by right|done].
Qed.

(** Every row of the result comes from a data line with as many fields
    as there are headers. *)
Lemma parseCSV_row_origin csvText row k v :
  row ∈ parseCSV csvText → row !! k = Some v →
  ∃ line cell,
    line ∈ dataLines csvText ∧
    cell ∈ parseCSVLine line [char_semicolon] ∧
    v = stripQuotes (trim cell).
Proof.
  unfold parseCSV, dataLines. intros Hrow Hk.
  destruct (_ <? _)%nat; [by apply elem_of_nil in Hrow|].
  apply list_elem_of_omap in Hrow as (line & Hline & Hsome).
  destruct (_ =? _)%nat; [|done]. simplify_eq.
  apply fillRow_lookup in Hk as [Hk|(cell & Hin & ->)].
  - by rewrite lookup_empty in Hk.
  - by exists line, cell.
Qed.
End ParserFacts.

Section ParserClaims.
Implicit Types (s t line cell : jsstring) (row : CSVRow).

Lemma parseCSVLine_from_nonempty line sep result current inQuotes :
  parseCSVLine_from line sep result current inQuotes ≠ [].
Proof.
  rewrite parseCSVLine_from_acc.
  destruct (parseCSVLine_from line sep [] [] inQuotes);
    by destruct result.
Qed.

Lemma parseCSVLine_from_closed line sep result :
  parseCSVLine_from line sep result [] false
  = result ++ parseCSVLine line sep.
Proof.
  rewrite parseCSVLine_from_acc. unfold parseCSVLine.
  pose proof (parseCSVLine_from_nonempty line sep [] [] false).
  by destruct (parseCSVLine_from line sep [] [] false).
Qed.

Lemma countChar_cons (sep c : N) line :
  countChar sep (c :: line)
  = ((if N.eqb sep c then 1 else 0) + countChar sep line)%nat.
Proof. unfold countChar. simpl. by destruct (N.eqb sep c). Qed.

Lemma inQuotedRegion_dquote s :
  inQuotedRegion (char_dquote :: s) = negb (inQuotedRegion s).
Proof.
  unfold inQuotedRegion. rewrite countChar_cons, N.eqb_refl.
  change (1 + countChar char_dquote s)%nat with (S (countChar char_dquote s)).
  by rewrite Nat.odd_succ, <- Nat.negb_odd.
Qed.

Lemma inQuotedRegion_other c s :
  (c =? char_dquote) = false → inQuotedRegion (c :: s) = inQuotedRegion s.
Proof.
  intros Hc. unfold inQuotedRegion. rewrite countChar_cons.
  by rewrite N.eqb_sym, Hc.
Qed.

(** A delimiter outside quotes closes the current field. *)
Lemma parseCSVLine_from_sep rest sep inQuotes :
  parseCSVLine_from rest sep ([] ++ [[]]) [] inQuotes
  = [] :: parseCSVLine_from rest sep [] [] inQuotes.
Proof.
  rewrite parseCSVLine_from_acc.
  pose proof (parseCSVLine_from_nonempty rest sep [] [] inQuotes).
  by destruct (parseCSVLine_from rest sep [] [] inQuotes).
Qed.

(** Any other code unit goes to the front of the first field. *)
Lemma parseCSVLine_from_char rest sep c inQuotes :
  parseCSVLine_from rest sep [] ([] ++ [c]) inQuotes
  = match parseCSVLine_from rest sep [] [] inQuotes with
    | [] => [[c]]
    | first :: others => (c :: first) :: others
    end.
Proof.
  rewrite parseCSVLine_from_acc.
  by destruct (parseCSVLine_from rest sep [] [] inQuotes).
Qed.

(** The fields of [s ++ t]: those of [s], the last of which goes on with
    the first field of [t], read from the quoting state that [s] leaves. *)
Lemma parseCSVLine_from_app s t sep inQuotes :
  ∃ init last first others,
    parseCSVLine_from s sep [] [] inQuotes = init ++ [last]
    ∧ parseCSVLine_from t sep [] [] (xorb inQuotes (inQuotedRegion s))
      = first :: others
    ∧ parseCSVLine_from (s ++ t) sep [] [] inQuotes
      = init ++ (last ++ first) :: others.
Proof.
  revert inQuotes. induction s as [|c s IH]; intros inQuotes.
  - change (inQuotedRegion []) with false. rewrite xorb_false_r.
    pose proof (parseCSVLine_from_nonempty t sep [] [] inQuotes) as Hne.
    destruct (parseCSVLine_from t sep [] [] inQuotes) as [|first others] eqn:Ht;
      [done|].
    exists [], [], first, others. simpl. by rewrite ?Ht.
  - rewrite <- app_comm_cons. cbn [parseCSVLine_from].
    destruct (c =? char_dquote) eqn:Hc.
    + apply N.eqb_eq in Hc as ->. rewrite inQuotedRegion_dquote.
      destruct (IH (negb inQuotes)) as (init & last & first & others & H1 & H2 & H3).
      exists init, last, first, others. split; [done|]. split; [|done].
      rewrite <- H2. f_equal. by destruct inQuotes, (inQuotedRegion s).
    + rewrite (inQuotedRegion_other _ _ Hc).
      destruct (IH inQuotes) as (init & last & first & others & H1 & H2 & H3).
      destruct (bool_decide ([c] = sep) && negb inQuotes).
      * rewrite !parseCSVLine_from_sep, H1, H3.
        by exists ([] :: init), last, first, others.
      * rewrite !parseCSVLine_from_char, H1, H3.
        destruct init as [|field init].
        -- by exists [], (c :: last), first, others.
        -- by exists ((c :: field) :: init), last, first, others.
Qed.

(** C6.  A delimiter inside a double-quoted region is literal text,
    wherever the region lies in the line.  A text [inner] without double
    quotes that stands after an odd number of double quotes goes whole,
    with its delimiters, into one field: the fields of the line are those
    of the line without [inner], with [inner] put in at its place.  A
    delimiter after an even number of double quotes is a field boundary.
    In particular a line that opens with a quoted region followed by the
    delimiter has that region as its first field.  The line with a quoted
    region in the middle of a field, and the text with header [a;b] and
    the data row ["x;y";z], which parses to the single mapping
    {a: x;y, b: z}, are instances. *)
Theorem parseCSV_honors_quotes :
  (∀ before inner after separator,
     inQuotedRegion before = true → char_dquote ∉ inner →
     ∃ init last first others,
       parseCSVLine before separator = init ++ [last]
       ∧ parseCSVLine (before ++ after) separator
         = init ++ (last ++ first) :: others
       ∧ parseCSVLine (before ++ inner ++ after) separator
         = init ++ (last ++ inner ++ first) :: others)
  ∧ (∀ before after sep,
       inQuotedRegion before = false → sep ≠ char_dquote →
       parseCSVLine (before ++ sep :: after) [sep]
       = parseCSVLine before [sep] ++ parseCSVLine after [sep])
  ∧ (∀ quoted rest,
       char_dquote ∉ quoted →
       parseCSVLine (char_dquote :: quoted ++ char_dquote :: char_semicolon :: rest)
                    [char_semicolon]
       = quoted :: parseCSVLine rest [char_semicolon])
  ∧ parseCSVLine midQuoteLine [char_semicolon] = [lit "ab;cd"; lit "e"]
  ∧ parseCSV quotedDelimiterText
    = [ {[ lit "a" := lit "x;y"; lit "b" := lit "z" ]} ].
Proof.
  split_and!.
  - intros before inner after separator Hbefore Hinner. unfold parseCSVLine.
    destruct (parseCSVLine_from_app before after separator false)
      as (init & last & first & others & H1 & H2 & H3).
    destruct (parseCSVLine_from_app before (inner ++ after) separator false)
      as (init' & last' & first' & others' & H1' & H2' & H3').
    rewrite H1 in H1'. apply app_inj_tail in H1' as [<- <-].
    rewrite Hbefore in H2, H2'. cbn [xorb] in H2, H2'.
    assert (Hquoted : ∀ current,
      parseCSVLine_from (inner ++ after) separator [] current true
      = parseCSVLine_from after separator [] (current ++ inner) true).
    { clear -Hinner. induction inner as [|c inner IH]; intros current.
      - by rewrite app_nil_r.
      - apply not_elem_of_cons in Hinner as [Hc Hinner].
        rewrite <- app_comm_cons. cbn [parseCSVLine_from].
        replace (c =? char_dquote) with false
          by (symmetry; apply N.eqb_neq; congruence).
        rewrite andb_false_r, IH by done. by rewrite <- app_assoc. }
    rewrite Hquoted, parseCSVLine_from_acc, H2 in H2'.
    injection H2' as <- <-.
    by exists init, last, first, others.
  - intros before after sep Hbefore Hsep. unfold parseCSVLine.
    destruct (parseCSVLine_from_app before (sep :: after) [sep] false)
      as (init & last & first & others & H1 & H2 & H3).
    rewrite Hbefore in H2. cbn [xorb parseCSVLine_from] in H2.
    replace (sep =? char_dquote) with false in H2
      by (symmetry; by apply N.eqb_neq).
    rewrite bool_decide_eq_true_2 in H2 by done. cbn [andb negb] in H2.
    rewrite parseCSVLine_from_sep in H2. injection H2 as <- <-.
    by rewrite H3, H1, app_nil_r, <- app_assoc.
  - intros quoted rest Hq. unfold parseCSVLine at 1. simpl.
    rewrite parseCSVLine_from_quoted by done. simpl.
    by rewrite parseCSVLine_from_closed.
  - vm_compute. reflexivity.
  - vm_compute. reflexivity.
Qed.

(** C6 on the line with a quoted region in the middle of a field: the
    text b;c stands after one double quote. *)
Lemma parseCSV_honors_quotes_witness :
  ∃ init last first others,
    parseCSVLine (lit "a" ++ [char_dquote]) [char_semicolon] = init ++ [last]
    ∧ parseCSVLine ((lit "a" ++ [char_dquote]) ++ char_dquote :: lit "d;e")
                   [char_semicolon]
      = init ++ (last ++ first) :: others
    ∧ parseCSVLine ((lit "a" ++ [char_dquote]) ++ lit "b;c"
                    ++ char_dquote :: lit "d;e") [char_semicolon]
      = init ++ (last ++ lit "b;c" ++ first) :: others.
Proof.
  apply (proj1 parseCSV_honors_quotes (lit "a" ++ [char_dquote]) (lit "b;c")
               (char_dquote :: lit "d;e") [char_semicolon]).
  - reflexivity.
  - intros Hin%list_elem_of_In. vm_compute in Hin. intuition discriminate.
Defined.

(** C10, counterexample.  The cell [' x'] is trimmed while the
    apostrophes still protect the space, then the apostrophes go: the
    value is a space followed by [x]. *)
Lemma parseCSV_value_leading_space : ¬ values_clean_and_trimmed.
Proof.
  intros Hclaim.
  destruct (Hclaim apostropheSpaceText {[ lit "a" := lit " x" ]}
                   (lit "a") (lit " x")) as (_ & _ & Hws & _).
  - assert (parseCSV apostropheSpaceText = [ {[ lit "a" := lit " x" ]} ])
      as -> by (vm_compute; reflexivity).
    by left.
  - vm_compute. reflexivity.
  - vm_compute in Hws. discriminate.
Qed.

(** C10, amended.  Every value of every mapping is a cell of a data
    line, trimmed and then stripped of quotes: it holds no double quote
    and no apostrophe, and it has no white space at its ends when the
    cell holds no apostrophe.  The cell [l'école] gives [lécole]. *)
Theorem parseCSV_values_stripped :
  (∀ csvText row k v,
     row ∈ parseCSV csvText → row !! k = Some v →
     (char_dquote ∉ v) ∧ (char_squote ∉ v)
     ∧ ∃ line cell,
         line ∈ dataLines csvText
         ∧ cell ∈ parseCSVLine line [char_semicolon]
         ∧ v = stripQuotes (trim cell)
         ∧ (char_squote ∉ cell →
            startsWithWS v = false ∧ endsWithWS v = false))
  ∧ parseCSV apostropheWordText = [ {[ lit "nom" := lit "lécole" ]} ].
Proof.
  split; [|vm_compute; reflexivity].
  intros csvText row k v Hrow Hk.
  destruct (parseCSV_row_origin _ _ _ _ Hrow Hk) as (line & cell & Hl & Hc & ->).
  split; [apply stripQuotes_no_dquote|].
  split; [apply stripQuotes_no_squote|].
  exists line, cell. repeat split; try done.
  - rewrite stripQuotes_id; [apply trim_startsWithWS| |].
    + intros Hin%elem_of_trim. by apply parseCSVLine_no_dquote in Hc.
    + by intros Hin%elem_of_trim.
  - rewrite stripQuotes_id; [apply trim_endsWithWS| |].
    + intros Hin%elem_of_trim. by apply parseCSVLine_no_dquote in Hc.
    + by intros Hin%elem_of_trim.
Qed.

(** The amended C10 on the cell in apostrophes. *)
Lemma parseCSV_values_stripped_witness :
  (char_dquote ∉ lit " x") ∧ (char_squote ∉ lit " x")
  ∧ ∃ line cell,
      line ∈ dataLines apostropheSpaceText
      ∧ cell ∈ parseCSVLine line [char_semicolon]
      ∧ lit " x" = stripQuotes (trim cell)
      ∧ (char_squote ∉ cell →
         startsWithWS (lit " x") = false ∧ endsWithWS (lit " x") = false).
Proof.
  apply (proj1 parseCSV_values_stripped apostropheSpaceText
               {[ lit "a" := lit " x" ]} (lit "a")).
  - assert (parseCSV apostropheSpaceText = [ {[ lit "a" := lit " x" ]} ])
      as -> by (vm_compute; reflexivity).
    by left.
  - vm_compute. reflexivity.
Defined.
End ParserClaims.

(** ** The entity normaliser *)

Section NormaliserFacts.
Local Open Scope nat_scope.
Implicit Types (row : CSVRow) (index : nat) (school : School.t).

(** What the fallback branch puts in the object it returns. *)
Lemma genericRowToSchool_fields row index school :
  genericRowToSchool row index = Some school →
  School.id school = index
  ∧ School.name school = None
  ∧ School.uai school = row !! uaiKey
  ∧ isNaN (School.latitude school) = false
  ∧ isNaN (School.longitude school) = false.
Proof.
  unfold genericRowToSchool.
  destruct (List.find _ genericLatKeys) as [latKey|]; [|done].
  destruct (List.find _ genericLonKeys) as [lonKey|]; [|done].
  destruct (List.find _ genericNameKeys) as [nameKeyGeneric|]; [|done].
  destruct (isNaN _ || isNaN _) eqn:Hnan; [done|].
  apply orb_false_iff in Hnan as [Hlat Hlon].
  intros [= <-]. simpl. auto.
Qed.

(** What the college branch puts in the object it returns. *)
Lemma collegeRowToSchool_fields row index school :
  collegeRowToSchool row index = Some school →
  School.id school = index
  ∧ School.name school = row !! nameKey
  ∧ School.uai school = None
  ∧ isNaN (School.latitude school) = false
  ∧ isNaN (School.longitude school) = false.
Proof.
  unfold collegeRowToSchool.
  destruct (split _ _) as [|part0 [|part1 [|? ?]]]; try done.
  destruct (isNaN _ || isNaN _) eqn:Hnan; [done|].
  apply orb_false_iff in Hnan as [Hlat Hlon].
  intros [= <-]. simpl. auto.
Qed.

(** The coordinates of an institution are the parsed columns. *)
Lemma genericRowToSchool_coordinates row index school :
  genericRowToSchool row index = Some school →
  ∃ latKey lonKey,
    List.find (hasKey row) genericLatKeys = Some latKey
    ∧ List.find (hasKey row) genericLonKeys = Some lonKey
    ∧ School.latitude school = parseFloatOf (row !! latKey)
    ∧ School.longitude school = parseFloatOf (row !! lonKey).
Proof.
  unfold genericRowToSchool.
  destruct (List.find _ genericLatKeys) as [latKey|]; [|done].
  destruct (List.find _ genericLonKeys) as [lonKey|]; [|done].
  destruct (List.find _ genericNameKeys) as [nameKeyGeneric|]; [|done].
  destruct (isNaN _ || isNaN _); [done|].
  intros [= <-]. exists latKey, lonKey. simpl. auto.
Qed.

Lemma collegeRowToSchool_coordinates row index school :
  collegeRowToSchool row index = Some school →
  ∃ part0 part1,
    split char_comma (default [] (row !! positionKey)) = [part0; part1]
    ∧ School.latitude school = parseFloat (trim part0)
    ∧ School.longitude school = parseFloat (trim part1).
Proof.
  unfold collegeRowToSchool.
  destruct (split _ _) as [|part0 [|part1 [|? ?]]]; try done.
  destruct (isNaN _ || isNaN _); [done|].
  intros [= <-]. exists part0, part1. simpl. auto.
Qed.

Lemma rowToSchool_id row index school :
  rowToSchool row index = Some school → School.id school = index.
Proof.
  unfold rowToSchool. destruct (collegeFormat row); intros Hs.
  - by apply collegeRowToSchool_fields in Hs as (? & _).
  - by apply genericRowToSchool_fields in Hs as (? & _).
Qed.

(** The institutions of a parse result are the accepted rows, each with
    the index of its row. *)
Lemma elem_of_csvRowsToSchools rows school :
  school ∈ csvRowsToSchools rows
  ↔ ∃ index row, rows !! index = Some row ∧ rowToSchool row index = Some school.
Proof.
  unfold csvRowsToSchools. rewrite list_elem_of_omap. split.
  - intros (o & Ho & ->).
    apply elem_of_lookup_imap in Ho as (index & row & Hs & Hrow). eauto.
  - intros (index & row & Hrow & Hs). exists (Some school). split; [|done].
    apply elem_of_lookup_imap. eauto.
Qed.

(** The ids of the rows read from position [start] on increase and are
    at least [start]. *)
Lemma ids_from_sorted (rows : list CSVRow) (start : nat) :
  let out := omap (fun s => s)
               (imap (fun index row => rowToSchool row (start + index)) rows) in
  StronglySorted lt (School.id <$> out)
  ∧ Forall (fun i => start ≤ i) (School.id <$> out).
Proof.
  revert start. induction rows as [|row rows IH]; intros start; simpl.
  - split; constructor.
  - destruct (IH (S start)) as [Hsorted Hge].
    rewrite (imap_ext _ (fun index row => rowToSchool row (S start + index)))
      by (intros; simpl; f_equal; lia).
    replace (start + 0)%nat with start by lia.
    destruct (rowToSchool row start) as [school|] eqn:Hs; simpl.
    + apply rowToSchool_id in Hs as ->. split.
      * constructor; [done|]. eapply Forall_impl; [exact Hge|]. simpl. lia.
      * constructor; [done|]. eapply Forall_impl; [exact Hge|]. simpl. lia.
    + split; [done|]. eapply Forall_impl; [exact Hge|]. simpl. lia.
Qed.

Lemma omap_length_le {A B} (f : A → option B) (l : list A) :
  length (omap f l) ≤ length l.
Proof.
  induction l as [|x l IH]; [done|].
  cbn [omap list_omap]. destruct (f x); cbn [length]; lia.
Qed.

(** When no row is dropped the ids are consecutive. *)
Lemma ids_from_all_accepted (rows : list CSVRow) (start : nat) :
  let out := omap (fun s => s)
               (imap (fun index row => rowToSchool row (start + index)) rows) in
  length out = length rows →
  School.id <$> out = seq start (length rows).
Proof.
  revert start. induction rows as [|row rows IH]; intros start; simpl; [done|].
  rewrite (imap_ext _ (fun index row => rowToSchool row (S start + index)))
    by (intros; simpl; f_equal; lia).
  replace (start + 0) with start by lia.
  destruct (rowToSchool row start) as [school|] eqn:Hs; simpl.
  - intros [= Hlen]. apply rowToSchool_id in Hs as ->. f_equal.
    exact (IH (S start) Hlen).
  - intros Hlen.
    match type of Hlen with
    | length ?l = _ => assert (Hle : length l ≤ length rows)
    end.
    { etrans; [apply omap_length_le|]. by rewrite length_imap. }
    lia.
Qed.
End NormaliserFacts.

Section NormaliserClaims.
Local Open Scope nat_scope.
Implicit Types (row : CSVRow) (index : nat) (school : School.t).

(** C1.  On the mapping {nom: École B, lat: 45.0, lon: 5.0} the
    fallback branch returns an institution with latitude 45 and
    longitude 5 and without a name: the name column is looked up, and
    required, but its value is not stored. *)
Theorem generic_example_has_no_name :
  List.find (hasKey genericExampleRow) genericNameKeys = Some (lit "nom")
  ∧ genericExampleRow !! lit "nom" = Some (lit "École B")
  ∧ rowToSchool genericExampleRow 0
    = Some {| School.id := 0;
              School.name := None;
              School.uai := None;
              School.address := None;
              School.latitude := ofZ 45;
              School.longitude := ofZ 5;
              School.type := None;
              School.distance := None |}
  ∧ School.name <$> csvRowsToSchools [genericExampleRow] = [None].
Proof. repeat split; vm_compute; reflexivity. Qed.

(** C2.  On a mapping of the college format that holds a registry code
    under [uai], the institution has no external code: the college
    branch never reads the key.  So it is with the sample file of the
    program: each of its six rows has a registry code, none of the six
    institutions has one. *)
Theorem college_example_has_no_uai :
  collegeFormat collegeUaiRow = true
  ∧ collegeUaiRow !! uaiKey = Some (lit "0590248Z")
  ∧ School.uai <$> rowToSchool collegeUaiRow 0 = Some None
  ∧ School.uai <$> csvRowsToSchools [collegeUaiRow] = [None]
  ∧ truthy ∘ (.!! uaiKey) <$> parseCSV generateSampleCSV = replicate 6 true
  ∧ School.uai <$> sampleSchools = replicate 6 None.
Proof. repeat split; vm_compute; reflexivity. Qed.

(** C3, counterexample.  The generic mapping with a value under [uai]
    gives an institution that carries it. *)
Lemma generic_uai_carried : ¬ generic_has_no_uai.
Proof.
  intros Hclaim.
  destruct (rowToSchool genericUaiRow 0) as [school|] eqn:Hs;
    [|vm_compute in Hs; discriminate].
  specialize (Hclaim genericUaiRow 0%nat school eq_refl Hs).
  vm_compute in Hs. injection Hs as <-. discriminate.
Qed.

(** C3, amended.  An institution of the generic format carries as its
    external code the value of the mapping under [uai], and none when
    the mapping has no such key. *)
Theorem generic_uai_is_row_uai row index school :
  collegeFormat row = false →
  rowToSchool row index = Some school →
  School.uai school = row !! uaiKey.
Proof.
  unfold rowToSchool. intros -> Hs.
  by apply genericRowToSchool_fields in Hs as (_ & _ & ? & _).
Qed.

(** The amended C3 on the generic mapping with a registry code. *)
Lemma generic_uai_is_row_uai_witness :
  ∃ school,
    rowToSchool genericUaiRow 0 = Some school
    ∧ School.uai school = Some (lit "0590248Z").
Proof.
  destruct (rowToSchool genericUaiRow 0) as [school|] eqn:Hs;
    [|vm_compute in Hs; discriminate].
  exists school. split; [done|].
  rewrite (generic_uai_is_row_uai genericUaiRow 0 school eq_refl Hs).
  vm_compute. reflexivity.
Defined.

(** C4, counterexample.  An empty mapping followed by a valid one: the
    first row is dropped and the only institution has id 1. *)
Lemma dropped_row_consumes_id : ¬ ids_dense.
Proof.
  intros Hclaim. specialize (Hclaim [∅; genericExampleRow]).
  vm_compute in Hclaim. discriminate.
Qed.

(** C4, amended.  The id of an institution is the 0-based position of
    its row in the sequence of parsed rows, dropped rows included: the
    institutions are the accepted rows, each with the position of its
    row as id; the position of a dropped row is the id of no
    institution; the ids increase strictly in output order, so they are
    unique; and they are 0, 1, 2, ... when no row is dropped. *)
Theorem ids_are_row_positions (rows : list CSVRow) :
  (∀ school,
     school ∈ csvRowsToSchools rows
     ↔ ∃ row, rows !! School.id school = Some row
              ∧ rowToSchool row (School.id school) = Some school)
  ∧ (∀ index row,
       rows !! index = Some row → rowToSchool row index = None →
       index ∉ School.id <$> csvRowsToSchools rows)
  ∧ StronglySorted lt (School.id <$> csvRowsToSchools rows)
  ∧ NoDup (School.id <$> csvRowsToSchools rows)
  ∧ (length (csvRowsToSchools rows) = length rows →
     School.id <$> csvRowsToSchools rows = seq 0 (length rows)).
Proof.
  assert (Hsorted : StronglySorted lt (School.id <$> csvRowsToSchools rows))
    by apply (ids_from_sorted rows 0).
  assert (Hmem : ∀ school,
     school ∈ csvRowsToSchools rows
     ↔ ∃ row, rows !! School.id school = Some row
              ∧ rowToSchool row (School.id school) = Some school).
  { intros school. split.
    - intros (index & row & Hrow & Hs)%elem_of_csvRowsToSchools.
      rewrite (rowToSchool_id _ _ _ Hs). eauto.
    - intros (row & Hrow & Hs). apply elem_of_csvRowsToSchools. eauto. }
  repeat split; try done; try apply Hmem.
  - intros index row Hrow Hnone (school & -> & Hin)%list_elem_of_fmap.
    apply Hmem in Hin as (row' & Hrow' & Hs). congruence.
  - induction Hsorted as [|i l _ IH Hall]; constructor; [|done].
    intros Hin. rewrite Forall_forall in Hall.
    apply Hall in Hin. lia.
  - apply (ids_from_all_accepted rows 0).
Qed.

(** The amended C4 on two accepted rows, and on a dropped row followed
    by an accepted one. *)
Lemma ids_are_row_positions_witness :
  School.id <$> csvRowsToSchools [genericExampleRow; genericUaiRow] = seq 0 2
  ∧ 0 ∉ School.id <$> csvRowsToSchools [∅; genericExampleRow].
Proof.
  split.
  - apply (proj2 (proj2 (proj2 (proj2
      (ids_are_row_positions [genericExampleRow; genericUaiRow]))))).
    vm_compute. reflexivity.
  - apply (proj1 (proj2 (ids_are_row_positions [∅; genericExampleRow])) 0 ∅).
    + reflexivity.
    + vm_compute. reflexivity.
Defined.

(** C5, counterexample.  The latitude [Infinity] parses to a number
    that is not NaN, and the row is kept. *)
Lemma infinite_coordinate_kept : ¬ coordinates_finite.
Proof.
  intros Hclaim.
  destruct (rowToSchool genericInfinityRow 0) as [school|] eqn:Hs;
    [|vm_compute in Hs; discriminate].
  destruct (Hclaim genericInfinityRow 0 school Hs) as [Hlat _].
  vm_compute in Hs. injection Hs as <-. discriminate.
Qed.

(** The rows that the college branch turns into an institution. *)
Lemma collegeRowToSchool_is_Some row index :
  is_Some (collegeRowToSchool row index)
  ↔ ∃ part0 part1,
      split char_comma (default [] (row !! positionKey)) = [part0; part1]
      ∧ isNaN (parseFloat (trim part0)) = false
      ∧ isNaN (parseFloat (trim part1)) = false.
Proof.
  unfold collegeRowToSchool.
  destruct (split _ _) as [|part0 [|part1 [|? ?]]];
    try (split; [by intros [? ?]|by intros (? & ? & ? & _)]).
  destruct (isNaN (parseFloat (trim part0))) eqn:Hlat,
           (isNaN (parseFloat (trim part1))) eqn:Hlon; cbn [orb].
  4: { split; [intros _|by eauto]. by exists part0, part1. }
  all: split; [by intros [? ?]|].
  all: intros (? & ? & [= <- <-] & ? & ?); congruence.
Qed.

(** The rows that the generic branch turns into an institution. *)
Lemma genericRowToSchool_is_Some row index :
  is_Some (genericRowToSchool row index)
  ↔ ∃ latKey lonKey,
      List.find (hasKey row) genericLatKeys = Some latKey
      ∧ List.find (hasKey row) genericLonKeys = Some lonKey
      ∧ is_Some (List.find (hasKey row) genericNameKeys)
      ∧ isNaN (parseFloatOf (row !! latKey)) = false
      ∧ isNaN (parseFloatOf (row !! lonKey)) = false.
Proof.
  unfold genericRowToSchool.
  destruct (List.find _ genericLatKeys) as [latKey|];
    [|split; [by intros [? ?]|by intros (? & ? & ? & _)]].
  destruct (List.find _ genericLonKeys) as [lonKey|];
    [|split; [by intros [? ?]|by intros (? & ? & _ & ? & _)]].
  destruct (List.find _ genericNameKeys) as [nameKeyGeneric|];
    [|split; [by intros [? ?]|by intros (? & ? & _ & _ & [? ?] & _)]].
  destruct (isNaN (parseFloatOf (row !! latKey))) eqn:Hlat,
           (isNaN (parseFloatOf (row !! lonKey))) eqn:Hlon; cbn [orb].
  4: { split; [intros _|by eauto]. exists latKey, lonKey. by eauto. }
  all: split; [by intros [? ?]|].
  all: intros (? & ? & [= <-] & [= <-] & _ & ? & ?); congruence.
Qed.

(** C5, amended.  An institution is produced exactly when the columns
    that the format needs are there and both coordinate values parse to a
    number other than NaN: then its coordinates are the parsed values of
    the coordinate columns (generic format) or of the two parts of the
    position (college format).  So a coordinate that parses to an
    infinity, of either sign, as latitude or as longitude, does not
    discard the row, in either format: it passes the test whenever the
    other coordinate is not NaN. *)
Theorem coordinates_not_NaN :
  (∀ row index school,
     rowToSchool row index = Some school →
     isNaN (School.latitude school) = false
     ∧ isNaN (School.longitude school) = false
     ∧ if collegeFormat row then
         ∃ part0 part1,
           split char_comma (default [] (row !! positionKey)) = [part0; part1]
           ∧ School.latitude school = parseFloat (trim part0)
           ∧ School.longitude school = parseFloat (trim part1)
       else
         ∃ latKey lonKey,
           List.find (hasKey row) genericLatKeys = Some latKey
           ∧ List.find (hasKey row) genericLonKeys = Some lonKey
           ∧ School.latitude school = parseFloatOf (row !! latKey)
           ∧ School.longitude school = parseFloatOf (row !! lonKey))
  ∧ (∀ row index,
       is_Some (rowToSchool row index)
       ↔ if collegeFormat row then
           ∃ part0 part1,
             split char_comma (default [] (row !! positionKey)) = [part0; part1]
             ∧ isNaN (parseFloat (trim part0)) = false
             ∧ isNaN (parseFloat (trim part1)) = false
         else
           ∃ latKey lonKey,
             List.find (hasKey row) genericLatKeys = Some latKey
             ∧ List.find (hasKey row) genericLonKeys = Some lonKey
             ∧ is_Some (List.find (hasKey row) genericNameKeys)
             ∧ isNaN (parseFloatOf (row !! latKey)) = false
             ∧ isNaN (parseFloatOf (row !! lonKey)) = false)
  ∧ (∀ row index part0 part1 sign,
       collegeFormat row = true →
       split char_comma (default [] (row !! positionKey)) = [part0; part1] →
       (parseFloat (trim part0) = S754_infinity sign
        ∧ isNaN (parseFloat (trim part1)) = false)
       ∨ (isNaN (parseFloat (trim part0)) = false
          ∧ parseFloat (trim part1) = S754_infinity sign) →
       is_Some (rowToSchool row index))
  ∧ (∀ row index latKey lonKey sign,
       collegeFormat row = false →
       List.find (hasKey row) genericLatKeys = Some latKey →
       List.find (hasKey row) genericLonKeys = Some lonKey →
       is_Some (List.find (hasKey row) genericNameKeys) →
       (parseFloatOf (row !! latKey) = S754_infinity sign
        ∧ isNaN (parseFloatOf (row !! lonKey)) = false)
       ∨ (isNaN (parseFloatOf (row !! latKey)) = false
          ∧ parseFloatOf (row !! lonKey) = S754_infinity sign) →
       is_Some (rowToSchool row index))
  ∧ School.latitude <$> rowToSchool genericInfinityRow 0 = Some Infinity
  ∧ School.latitude <$> rowToSchool collegeInfinityRow 0 = Some Infinity
  ∧ School.longitude <$> rowToSchool genericNegInfinityRow 0
    = Some (S754_infinity true)
  ∧ School.longitude <$> rowToSchool collegeNegInfinityRow 0
    = Some (S754_infinity true).
Proof.
  assert (Hkept : ∀ row index,
    is_Some (rowToSchool row index)
    ↔ if collegeFormat row then
        ∃ part0 part1,
          split char_comma (default [] (row !! positionKey)) = [part0; part1]
          ∧ isNaN (parseFloat (trim part0)) = false
          ∧ isNaN (parseFloat (trim part1)) = false
      else
        ∃ latKey lonKey,
          List.find (hasKey row) genericLatKeys = Some latKey
          ∧ List.find (hasKey row) genericLonKeys = Some lonKey
          ∧ is_Some (List.find (hasKey row) genericNameKeys)
          ∧ isNaN (parseFloatOf (row !! latKey)) = false
          ∧ isNaN (parseFloatOf (row !! lonKey)) = false).
  { intros row index. unfold rowToSchool. destruct (collegeFormat row).
    - apply collegeRowToSchool_is_Some.
    - apply genericRowToSchool_is_Some. }
  split; [|split; [done|]; split; [|split; [|by vm_compute]]].
  - intros row index school. unfold rowToSchool.
    destruct (collegeFormat row); intros Hs.
    + pose proof (collegeRowToSchool_coordinates _ _ _ Hs).
      apply collegeRowToSchool_fields in Hs as (_ & _ & _ & ? & ?). auto.
    + pose proof (genericRowToSchool_coordinates _ _ _ Hs).
      apply genericRowToSchool_fields in Hs as (_ & _ & _ & ? & ?). auto.
  - intros row index part0 part1 sign Hcollege Hsplit Hinf.
    apply Hkept. rewrite Hcollege. exists part0, part1. split; [done|].
    by destruct Hinf as [[Hinf ?]|[? Hinf]]; rewrite ?Hinf.
  - intros row index latKey lonKey sign Hgeneric Hlat Hlon Hname Hinf.
    apply Hkept. rewrite Hgeneric. exists latKey, lonKey.
    split_and!; try done; by destruct Hinf as [[Hinf ?]|[? Hinf]]; rewrite ?Hinf.
Qed.

(** The amended C5 on the generic mapping with an infinite latitude. *)
Lemma coordinates_not_NaN_witness :
  ∃ school,
    rowToSchool genericInfinityRow 0 = Some school
    ∧ isNaN (School.latitude school) = false
    ∧ isNaN (School.longitude school) = false.
Proof.
  destruct (rowToSchool genericInfinityRow 0) as [school|] eqn:Hs;
    [|vm_compute in Hs; discriminate].
  exists school. split; [done|].
  destruct (proj1 coordinates_not_NaN genericInfinityRow 0 school Hs)
    as (Hlat & Hlon & _).
  by split.
Defined.
End NormaliserClaims.

(** ** Binary64 arithmetic *)

Section NumberFacts.
Implicit Types (x y z : number) (s : bool).

Lemma neg_involutive x : neg (neg x) = x.
Proof. destruct x; simpl; by rewrite ?negb_involutive. Qed.

(** Rounding acts on the magnitude; the sign is carried along. *)
Lemma binary_round_aux_negb s m e l :
  binary_round_aux prec emax (negb s) m e l
  = neg (binary_round_aux prec emax s m e l).
Proof.
  unfold binary_round_aux.
  destruct (shr_fexp prec emax m e l) as [mrs' e'].
  destruct (shr_fexp prec emax _ e' loc_Exact) as [mrs'' e''].
  destruct (shr_m mrs''); [done| |done].
  by destruct (Z.leb e'' _).
Qed.

Lemma binary_round_negb s m e :
  binary_round prec emax (negb s) m e = neg (binary_round prec emax s m e).
Proof.
  unfold binary_round. destruct (shl_align _ _ _) as [mz ez].
  apply binary_round_aux_negb.
Qed.

(** Rounding the opposite of a non-zero integer gives the opposite. *)
Lemma binary_normalize_opp (m e : Z) :
  m ≠ 0%Z →
  binary_normalize prec emax (- m) e false
  = neg (binary_normalize prec emax m e false).
Proof.
  destruct m as [|p|p]; [done| |]; intros _; simpl.
  - apply (binary_round_negb false).
  - change true with (negb false).
    by rewrite binary_round_negb, neg_involutive.
Qed.

(** [x - y] and [y - x] are opposite, unless both are the zero that
    the difference of two equal values rounds to. *)
Lemma sub_antisym x y :
  sub x y = neg (sub y x)
  ∨ (sub x y = S754_zero false ∧ sub y x = S754_zero false).
Proof.
  destruct x as [sx|sx| |sx mx ex], y as [sy|sy| |sy my ey];
    try (destruct sx, sy; simpl; by auto);
    try (destruct sx; simpl; by auto);
    try (destruct sy; simpl; by auto);
    try (simpl; by auto).
  unfold sub, SFsub. rewrite (Z.min_comm ey ex).
  set (a := cond_Zopp sx _). set (b := cond_Zopp sy _).
  destruct (decide (a - b = 0)%Z) as [Hz|Hnz].
  - right. replace (b - a)%Z with 0%Z by lia. by rewrite Hz.
  - left. replace (a - b)%Z with (- (b - a))%Z by lia.
    apply binary_normalize_opp. lia.
Qed.

Lemma mul_neg_l x y : mul (neg x) y = neg (mul x y).
Proof.
  destruct x as [sx|sx| |sx mx ex], y as [sy|sy| |sy my ey]; simpl;
    try done; try (by destruct sx, sy).
  rewrite <- binary_round_aux_negb. by destruct sx, sy.
Qed.

Lemma mul_comm x y : mul x y = mul y x.
Proof.
  destruct x as [sx|sx| |sx mx ex], y as [sy|sy| |sy my ey]; simpl;
    try done; try (by destruct sx, sy).
  by rewrite (xorb_comm sx sy), (Pos.mul_comm mx my), (Z.add_comm ex ey).
Qed.

Lemma mul_neg_r x y : mul x (neg y) = neg (mul x y).
Proof. by rewrite (mul_comm x), mul_neg_l, (mul_comm y). Qed.

Lemma div_neg_l x y : div (neg x) y = neg (div x y).
Proof.
  destruct x as [sx|sx| |sx mx ex], y as [sy|sy| |sy my ey]; simpl;
    try done; try (by destruct sx, sy).
  destruct (SFdiv_core_binary _ _ _ _ _ _) as [[mz ez] lz].
  rewrite <- binary_round_aux_negb. by destruct sx, sy.
Qed.
End NumberFacts.

(** ** The distance engine *)

Section DistanceFacts.
Context `{Engine}.

Hypothesis Math_sin_odd : ∀ x, Math_sin (neg x) = neg (Math_sin x).

Lemma halfSin_neg d : halfSin (neg d) = neg (halfSin d).
Proof.
  unfold halfSin, toRadians. by rewrite mul_neg_l, div_neg_l, Math_sin_odd.
Qed.

(** The two haversine terms only depend on a difference through its
    magnitude. *)
Lemma haversine_term_sym (k a b : number) :
  mul (mul k (halfSin (sub a b))) (halfSin (sub a b))
  = mul (mul k (halfSin (sub b a))) (halfSin (sub b a)).
Proof.
  destruct (sub_antisym a b) as [-> | [-> ->]]; [|done].
  by rewrite halfSin_neg, !mul_neg_r, mul_neg_l, neg_involutive.
Qed.

Lemma haversine_square_sym (a b : number) :
  mul (halfSin (sub a b)) (halfSin (sub a b))
  = mul (halfSin (sub b a)) (halfSin (sub b a)).
Proof.
  destruct (sub_antisym a b) as [-> | [-> ->]]; [|done].
  by rewrite halfSin_neg, mul_neg_r, mul_neg_l, neg_involutive.
Qed.

(** Half the difference to an infinite latitude, in radians, is not
    finite. *)
Lemma halfDifference_infinite lat2 sign :
  isFinite (div (toRadians (sub lat2 (S754_infinity sign))) (ofZ 2)) = false.
Proof. by destruct lat2 as [s|s| |s m e], sign; try destruct s. Qed.

Lemma add_NaN_l x : add NaN x = NaN.
Proof. by destruct x. Qed.

(** From a point with an infinite latitude every distance is NaN, on an
    engine that follows the language there. *)
Lemma calculateDistance_infinite sign lon1 lat2 lon2 :
  conforming _ →
  calculateDistance (S754_infinity sign) lon1 lat2 lon2 = NaN.
Proof.
  intros (Hsin & _ & Hatan2 & HtoFixed). unfold calculateDistance.
  rewrite (Hsin _ (halfDifference_infinite lat2 sign)).
  change (mul NaN NaN) with NaN. rewrite add_NaN_l.
  change (sqrt NaN) with NaN. rewrite (Hatan2 NaN _ eq_refl).
  change (mul (ofZ 6371) (mul (ofZ 2) NaN)) with NaN.
  rewrite HtoFixed. by vm_compute.
Qed.

(** C7, amended.  On an engine whose [Math.sin] is odd the distance
    function is symmetric in this sense: computed from [p] to [q] or from
    [q] to [p], the result is the same value, bit for bit, a number or
    NaN.  So [==] holds of the two results exactly when the result is
    not NaN.  It is NaN, for one, from a point with an infinite latitude,
    on an engine that follows the language at arguments that are not
    finite. *)
Theorem calculateDistance_symmetric (lat1 lon1 lat2 lon2 : number) :
  calculateDistance lat1 lon1 lat2 lon2 = calculateDistance lat2 lon2 lat1 lon1
  ∧ SFeqb (calculateDistance lat1 lon1 lat2 lon2)
          (calculateDistance lat2 lon2 lat1 lon1)
    = negb (isNaN (calculateDistance lat1 lon1 lat2 lon2))
  ∧ (conforming _ →
     ∀ sign,
       isNaN (calculateDistance (S754_infinity sign) lon1 lat2 lon2) = true
       ∧ SFeqb (calculateDistance (S754_infinity sign) lon1 lat2 lon2)
               (calculateDistance lat2 lon2 (S754_infinity sign) lon1)
         = false).
Proof.
  assert (Hsym : ∀ lat1 lon1 lat2 lon2,
    calculateDistance lat1 lon1 lat2 lon2
    = calculateDistance lat2 lon2 lat1 lon1).
  { clear lat1 lon1 lat2 lon2. intros lat1 lon1 lat2 lon2.
    unfold calculateDistance.
    pose proof (haversine_square_sym lat2 lat1) as Hlat.
    pose proof (haversine_term_sym
                  (mul (Math_cos (toRadians lat1)) (Math_cos (toRadians lat2)))
                  lon2 lon1) as Hlon.
    unfold halfSin in Hlat, Hlon. rewrite Hlat, Hlon.
    by rewrite (mul_comm (Math_cos (toRadians lat1))). }
  split; [apply Hsym|]. split.
  - rewrite <- (Hsym lat1 lon1 lat2 lon2).
    destruct (calculateDistance lat1 lon1 lat2 lon2) as [[]|[]| |[] m e];
      try done; unfold SFeqb, SFcompare;
      by rewrite ?Z.compare_refl, ?Pos.compare_cont_refl.
  - intros Hconforming sign.
    rewrite <- (Hsym (S754_infinity sign) lon1 lat2 lon2).
    rewrite (calculateDistance_infinite sign lon1 lat2 lon2) by done.
    done.
Qed.
End DistanceFacts.

Lemma GuardedEngine_sinOdd : sinOdd GuardedEngine.engine.
Proof. intros x. by destruct x. Qed.

Lemma GuardedEngine_conforming : conforming GuardedEngine.engine.
Proof.
  split_and!.
  - by intros x; simpl; intros ->.
  - by intros x; simpl; intros ->.
  - by intros y x; simpl; intros ->.
  - done.
Qed.

(** C7, counterexample.  From a point with the latitude [Infinity], which
    the normaliser lets through, to Lille and back: both results are NaN,
    and NaN is not [==] to itself. *)
Lemma infinite_latitude_not_equal : ¬ distance_symmetric_eq.
Proof.
  intros Hclaim.
  specialize (Hclaim GuardedEngine.engine GuardedEngine_sinOdd
                     GuardedEngine_conforming
                     Infinity (parseFloat (lit "2.3"))
                     (pos_latitude lille) (pos_longitude lille)).
  rewrite (calculateDistance_infinite false) in Hclaim
    by apply GuardedEngine_conforming.
  discriminate.
Qed.

(** The amended C7 for the sample engine, between Somain and Lille: the
    result is a number, and [==] holds. *)
Lemma calculateDistance_symmetric_witness :
  SFeqb (@calculateDistance SampleEngine.engine
           (pos_latitude somain) (pos_longitude somain)
           (pos_latitude lille) (pos_longitude lille))
        (@calculateDistance SampleEngine.engine
           (pos_latitude lille) (pos_longitude lille)
           (pos_latitude somain) (pos_longitude somain))
  = true.
Proof.
  rewrite (proj1 (proj2 (@calculateDistance_symmetric SampleEngine.engine
                           (fun x => eq_refl)
                           (pos_latitude somain) (pos_longitude somain)
                           (pos_latitude lille) (pos_longitude lille)))).
  by vm_compute.
Defined.

(** ** Rounding to binary64 *)

Section RoundingFacts.
Local Open Scope Z_scope.
Local Abbreviation fexp := (SpecFloat.fexp prec emax).

Local Ltac unfold_fexp :=
  unfold SpecFloat.fexp, SpecFloat.emin, prec, emax in *.

Lemma digits2_pos_size p : digits2_pos p = Pos.size p.
Proof. induction p; simpl; by f_equal. Qed.

(** The number of binary digits is one more than the binary logarithm. *)
Lemma Zdigits2_log2 m : 0 < m → Zdigits2 m = Z.log2 m + 1.
Proof.
  destruct m as [|p|p]; try lia. intros _.
  destruct p; simpl; rewrite ?digits2_pos_size; lia.
Qed.

Lemma Zdigits2_nonneg m : 0 ≤ Zdigits2 m.
Proof. destruct m; simpl; lia. Qed.

Lemma Zdigits2_bounds m :
  0 < m → 2 ^ (Zdigits2 m - 1) ≤ m < 2 ^ Zdigits2 m.
Proof.
  intros Hm. rewrite Zdigits2_log2 by done.
  replace (Z.log2 m + 1 - 1) with (Z.log2 m) by lia.
  apply Z.log2_spec, Hm.
Qed.

Lemma Zdigits2_mono a b : 0 ≤ a ≤ b → Zdigits2 a ≤ Zdigits2 b.
Proof.
  intros [Ha Hab]. destruct (decide (a = 0)) as [->|Hne].
  - apply Zdigits2_nonneg.
  - rewrite !Zdigits2_log2 by lia.
    pose proof (Z.log2_le_mono a b Hab). lia.
Qed.

Lemma Zdigits2_succ m : 0 ≤ m → Zdigits2 (m + 1) ≤ Zdigits2 m + 1.
Proof.
  intros Hm. destruct (decide (m = 0)) as [->|Hne]; [done|].
  rewrite !Zdigits2_log2 by lia.
  pose proof (Z.log2_succ_le m). unfold Z.succ in *. lia.
Qed.

(** Shifting right by fewer places than there are digits. *)
Lemma shiftr_digits m n :
  0 < m → 0 ≤ n < Zdigits2 m →
  0 < Z.shiftr m n ∧ Zdigits2 (Z.shiftr m n) = Zdigits2 m - n.
Proof.
  intros Hm [Hn Hlt]. rewrite Zdigits2_log2 in Hlt by done.
  assert (Hpos : 0 < Z.shiftr m n).
  { rewrite Z.shiftr_div_pow2 by done.
    apply Z.div_str_pos. split; [by apply Z.pow_pos_nonneg|].
    etrans; [|apply Z.log2_spec, Hm].
    apply Z.pow_le_mono_r; lia. }
  split; [done|].
  rewrite !Zdigits2_log2, Z.log2_shiftr by done. lia.
Qed.

(** Shifting right by at least as many places as there are digits. *)
Lemma shiftr_small m n : 0 ≤ m → Zdigits2 m ≤ n → Z.shiftr m n = 0.
Proof.
  intros Hm Hn. destruct (decide (m = 0)) as [->|Hne].
  - apply Z.shiftr_0_l.
  - pose proof (Zdigits2_bounds m ltac:(lia)) as [_ Hub].
    pose proof (Zdigits2_nonneg m).
    rewrite Z.shiftr_div_pow2 by lia.
    apply Z.div_small. split; [done|].
    eapply Z.lt_le_trans; [exact Hub|]. apply Z.pow_le_mono_r; lia.
Qed.

Lemma shr_1_m mrs : 0 ≤ shr_m mrs → shr_m (shr_1 mrs) = Z.shiftr (shr_m mrs) 1.
Proof.
  destruct mrs as [m r s]. simpl. intros Hm.
  rewrite <- Z.div2_spec. by destruct m as [|[p|p|]|p].
Qed.

Lemma iter_shr_1_m p mrs :
  0 ≤ shr_m mrs →
  shr_m (SpecFloat.iter_pos shr_1 p mrs) = Z.shiftr (shr_m mrs) (Zpos p).
Proof.
  revert mrs. induction p as [p IH|p IH|]; intros mrs Hm; simpl.
  - assert (0 ≤ shr_m (shr_1 mrs))
      by (rewrite shr_1_m by done; by apply Z.shiftr_nonneg).
    assert (0 ≤ shr_m (SpecFloat.iter_pos shr_1 p (shr_1 mrs)))
      by (rewrite IH by done; by apply Z.shiftr_nonneg).
    rewrite !IH, shr_1_m, !Z.shiftr_shiftr by lia. f_equal. lia.
  - assert (0 ≤ shr_m (SpecFloat.iter_pos shr_1 p mrs))
      by (rewrite IH by done; by apply Z.shiftr_nonneg).
    rewrite !IH, !Z.shiftr_shiftr by lia. f_equal. lia.
  - by apply shr_1_m.
Qed.

(** [shr_fexp] shifts the mantissa to the exponent [fexp] asks for, when
    that exponent is larger. *)
Lemma shr_fexp_spec m e l :
  0 ≤ m →
  let n := Z.max 0 (fexp (Zdigits2 m + e) - e) in
  shr_m (fst (shr_fexp prec emax m e l)) = Z.shiftr m n
  ∧ snd (shr_fexp prec emax m e l) = e + n.
Proof.
  intros Hm n. unfold shr_fexp, shr. subst n.
  assert (Hrec : shr_m (shr_record_of_loc m l) = m) by by destruct l as [|[]].
  destruct (fexp (Zdigits2 m + e) - e) as [|p|p] eqn:Hn; simpl.
  - by rewrite Hrec, Z.add_0_r.
  - rewrite iter_shr_1_m by lia. by rewrite Hrec, Z.max_r by lia.
  - by rewrite Hrec, Z.add_0_r.
Qed.

(** After [shr_fexp] the pair of mantissa and exponent is canonical,
    provided the exponent it starts from is not too large. *)
Lemma shr_fexp_canonical m e l :
  0 ≤ m → e ≤ fexp (Zdigits2 m + e) →
  let m' := shr_m (fst (shr_fexp prec emax m e l)) in
  let e' := snd (shr_fexp prec emax m e l) in
  0 ≤ m' ∧ fexp (Zdigits2 m' + e') = e'.
Proof.
  intros Hm He. destruct (shr_fexp_spec m e l Hm) as [-> ->]. simpl.
  set (n := Z.max 0 _). assert (Hn : n = fexp (Zdigits2 m + e) - e) by lia.
  split; [by apply Z.shiftr_nonneg|].
  destruct (decide (n < Zdigits2 m)) as [Hlt|Hge].
  - assert (0 < m) by (destruct m; simpl in *; lia).
    destruct (shiftr_digits m n) as [_ ->]; [done|lia|].
    replace (Zdigits2 m - n + (e + n)) with (Zdigits2 m + e) by lia. lia.
  - rewrite shiftr_small by lia. simpl.
    pose proof (Zdigits2_nonneg m). unfold_fexp. lia.
Qed.

(** A positive mantissa above the smallest exponent stays positive. *)
Lemma shr_fexp_positive m e l :
  0 < m → SpecFloat.emin prec emax < Zdigits2 m + e →
  let m' := shr_m (fst (shr_fexp prec emax m e l)) in
  let e' := snd (shr_fexp prec emax m e l) in
  0 < m' ∧ SpecFloat.emin prec emax < Zdigits2 m' + e'.
Proof.
  intros Hm He. destruct (shr_fexp_spec m e l) as [-> ->]; [lia|]. simpl.
  set (n := Z.max 0 _).
  assert (Hn : 0 ≤ n < Zdigits2 m).
  { pose proof (Zdigits2_bounds m Hm). subst n. unfold_fexp.
    assert (0 < Zdigits2 m) by (destruct m; simpl in *; lia). lia. }
  destruct (shiftr_digits m n Hm Hn) as [Hpos ->]. split; [done|lia].
Qed.

Lemma round_nearest_even_cases m l :
  round_nearest_even m l = m ∨ round_nearest_even m l = m + 1.
Proof. destruct l as [|[]]; simpl; try destruct (Z.even m); auto. Qed.

(** [binary_round_aux] returns a binary64 value when it is given a
    mantissa with enough digits for its exponent. *)
Lemma binary_round_aux_valid s m e l :
  0 ≤ m → e ≤ fexp (Zdigits2 m + e) →
  valid_binary prec emax (binary_round_aux prec emax s m e l) = true.
Proof.
  intros Hm He. unfold binary_round_aux.
  destruct (shr_fexp_canonical m e l Hm He) as [Hm' He'].
  destruct (shr_fexp prec emax m e l) as [mrs' e']. simpl in Hm', He'.
  set (m1 := round_nearest_even (shr_m mrs') (loc_of_shr_record mrs')).
  assert (Hm1 : shr_m mrs' ≤ m1 ≤ shr_m mrs' + 1)
    by (destruct (round_nearest_even_cases (shr_m mrs')
                    (loc_of_shr_record mrs')); subst m1; lia).
  assert (He1 : e' ≤ fexp (Zdigits2 m1 + e')).
  { pose proof (Zdigits2_mono (shr_m mrs') m1 ltac:(lia)).
    unfold_fexp. lia. }
  destruct (shr_fexp_canonical m1 e' loc_Exact ltac:(lia) He1) as [Hm'' He''].
  destruct (shr_fexp prec emax m1 e' loc_Exact) as [mrs'' e''].
  simpl in Hm'', He''.
  destruct (shr_m mrs'') as [|p|p]; [done| |lia].
  destruct (Z.leb e'' (emax - prec)) eqn:Hle; [|done].
  simpl. unfold bounded, canonical_mantissa.
  simpl in He''. by rewrite He'', Z.eqb_refl, Hle.
Qed.

(** Rounding a non-zero value that lies above the smallest exponent
    gives a finite non-zero number or an infinity. *)
Lemma binary_round_aux_positive s m e l :
  0 < m → SpecFloat.emin prec emax < Zdigits2 m + e →
  (∃ m' e', binary_round_aux prec emax s m e l = S754_finite s m' e')
  ∨ binary_round_aux prec emax s m e l = S754_infinity s.
Proof.
  intros Hm He. unfold binary_round_aux.
  destruct (shr_fexp_positive m e l Hm He) as [Hm' He'].
  destruct (shr_fexp prec emax m e l) as [mrs' e']. simpl in Hm', He'.
  set (m1 := round_nearest_even (shr_m mrs') (loc_of_shr_record mrs')).
  assert (Hm1 : shr_m mrs' ≤ m1)
    by (destruct (round_nearest_even_cases (shr_m mrs')
                    (loc_of_shr_record mrs')); subst m1; lia).
  pose proof (Zdigits2_mono (shr_m mrs') m1 ltac:(lia)).
  destruct (shr_fexp_positive m1 e' loc_Exact) as [Hm'' _]; [lia..|].
  destruct (shr_fexp prec emax m1 e' loc_Exact) as [mrs'' e''].
  simpl in Hm''.
  destruct (shr_m mrs'') as [|p|p]; [lia| |lia].
  destruct (Z.leb e'' _); eauto.
Qed.

Lemma Pos_iter_xO m d : Zpos (Pos.iter xO m d) = Zpos m * 2 ^ Zpos d.
Proof.
  induction d as [|d IH] using Pos.peano_ind.
  - simpl. lia.
  - rewrite Pos.iter_succ, Pos2Z.inj_xO, IH, Pos2Z.inj_succ, Z.pow_succ_r; lia.
Qed.

(** [shl_align] keeps the value and lowers the exponent to [e'] when it
    is smaller. *)
Lemma shl_align_spec m e e' :
  Zpos (fst (shl_align m e e')) = Zpos m * 2 ^ (e - Z.min e e')
  ∧ snd (shl_align m e e') = Z.min e e'.
Proof.
  unfold shl_align. destruct (e' - e) as [|d|d] eqn:Hd; simpl.
  - replace (e - Z.min e e') with 0 by lia. lia.
  - replace (e - Z.min e e') with 0 by lia. lia.
  - rewrite Pos_iter_xO. replace (e - Z.min e e') with (Zpos d) by lia. lia.
Qed.

Lemma Zdigits2_mul_pow2 m k :
  0 < m → 0 ≤ k → Zdigits2 (m * 2 ^ k) = Zdigits2 m + k.
Proof.
  intros Hm Hk.
  assert (0 < m * 2 ^ k) by (apply Z.mul_pos_pos; [done|by apply Z.pow_pos_nonneg]).
  rewrite !Zdigits2_log2, Z.log2_mul_pow2 by done. lia.
Qed.

Lemma binary_round_valid s m e :
  valid_binary prec emax (binary_round prec emax s m e) = true.
Proof.
  unfold binary_round.
  destruct (shl_align_spec m e (fexp (Zpos (digits2_pos m) + e))) as [Hmz Hez].
  destruct (shl_align m e _) as [mz ez]. simpl in Hmz, Hez.
  apply binary_round_aux_valid; [lia|].
  rewrite Hmz, Zdigits2_mul_pow2 by lia. simpl.
  set (d := Zpos (digits2_pos m)) in *. unfold_fexp. lia.
Qed.

(** The quotient [SFdiv_core_binary] returns has enough digits for its
    exponent. *)
Lemma SFdiv_core_binary_digits m1 e1 m2 e2 :
  0 < m1 → 0 < m2 →
  let '(q, e', _) := SFdiv_core_binary prec emax m1 e1 m2 e2 in
  0 ≤ q ∧ e' ≤ fexp (Zdigits2 q + e').
Proof.
  intros Hm1 Hm2. unfold SFdiv_core_binary.
  set (d1 := Zdigits2 m1). set (d2 := Zdigits2 m2).
  set (e' := Z.min _ _). set (s := e1 - e2 - e').
  assert (Hs : 0 ≤ s) by (subst s e'; lia).
  set (m' := match s with Zpos _ => Z.shiftl m1 s | 0 => m1 | Zneg _ => 0 end).
  assert (Hm' : m' = m1 * 2 ^ s).
  { subst m'. destruct s as [|p|p] eqn:Hp; [lia| |lia].
    by rewrite Z.shiftl_mul_pow2. }
  pose proof (Z.div_eucl_eq m' m2 ltac:(lia)) as Heucl.
  pose proof (Z.mod_pos_bound m' m2 Hm2) as Hmod.
  unfold Z.modulo in Hmod.
  assert (Hdiv : fst (Z.div_eucl m' m2) = m' / m2) by done.
  destruct (Z.div_eucl m' m2) as [q r]. simpl in Hdiv. subst q.
  assert (Hpow : 0 < 2 ^ s) by by apply Z.pow_pos_nonneg.
  assert (Hq : 0 ≤ m' / m2) by (apply Z.div_pos; nia).
  split; [done|].
  destruct (decide (e' ≤ SpecFloat.emin prec emax)) as [Hle|Hgt].
  { unfold_fexp. lia. }
  (* above the smallest exponent the quotient has at least [prec] digits *)
  set (k := d1 - 1 + s - d2).
  assert (Hk : prec - 1 ≤ k) by (subst k s e'; unfold_fexp; lia).
  assert (Hlow : 2 ^ k ≤ m' / m2).
  { apply Z.div_le_lower_bound; [done|].
    pose proof (Zdigits2_bounds m1 Hm1) as [Hlo1 _].
    pose proof (Zdigits2_bounds m2 Hm2) as [_ Hhi2].
    fold d1 in Hlo1. fold d2 in Hhi2.
    assert (0 ≤ d2) by apply Zdigits2_nonneg.
    assert (0 < d1) by (subst d1; destruct m1; simpl in *; lia).
    assert (Hsplit : 2 ^ d2 * 2 ^ k = 2 ^ (d1 - 1) * 2 ^ s).
    { rewrite <- !Z.pow_add_r by (unfold prec in *; lia). f_equal. lia. }
    assert (0 < 2 ^ k) by (apply Z.pow_pos_nonneg; unfold prec in *; lia).
    rewrite Hm'. nia. }
  assert (Hdig : k + 1 ≤ Zdigits2 (m' / m2)).
  { assert (0 < 2 ^ k) by (apply Z.pow_pos_nonneg; unfold prec in *; lia).
    rewrite Zdigits2_log2 by lia.
    apply Z.log2_le_pow2 in Hlow; lia. }
  unfold_fexp. lia.
Qed.

Lemma ofDecimal_valid s m e10 :
  valid_binary prec emax (ofDecimal s m e10) = true.
Proof.
  unfold ofDecimal. destruct m as [|p|p]; [done| |done].
  destruct (Z.leb_spec 0 e10); [apply binary_round_valid|].
  pose proof (SFdiv_core_binary_digits (Zpos p) 0 (10 ^ (- e10)) 0) as Hq.
  destruct (SFdiv_core_binary _ _ _ _ _ _) as [[q e] l].
  destruct Hq as [Hq He]; [done| |by apply binary_round_aux_valid].
  apply Z.pow_pos_nonneg; lia.
Qed.

(** [parseFloat] returns a binary64 value. *)
Lemma parseFloat_valid str : valid_binary prec emax (parseFloat str) = true.
Proof.
  unfold parseFloat. destruct (takeSign _) as [sg body].
  destruct (isPrefix _ _); [done|].
  destruct (takeDigits body) as [ip rest].
  destruct (match rest with 46%N :: r => takeDigits r | _ => ([], rest) end)
    as [fp rest'].
  destruct ip, fp; try done; apply ofDecimal_valid.
Qed.
End RoundingFacts.

(** ** The order on numbers *)

Section OrderFacts.
Implicit Types (x y z : number).

Local Ltac compare_cases :=
  repeat match goal with
  | H : context [Z.compare ?a ?b] |- _ => destruct (Z.compare_spec a b)
  | |- context [Z.compare ?a ?b] => destruct (Z.compare_spec a b)
  | H : context [Pos.compare_cont Eq ?a ?b] |- _ =>
      change (Pos.compare_cont Eq a b) with (Pos.compare a b) in *;
      destruct (Pos.compare_spec a b)
  | |- context [Pos.compare_cont Eq ?a ?b] =>
      change (Pos.compare_cont Eq a b) with (Pos.compare a b) in *;
      destruct (Pos.compare_spec a b)
  end.

Local Ltac order_cases :=
  unfold ltb, leb, SFltb, SFleb, SFeqb, SFcompare in *;
  repeat match goal with
  | s : bool |- _ => destruct s
  end;
  simpl in *; try done; compare_cases; simpl in *; try done; try lia.

Lemma ltb_leb x y : ltb x y = true → leb x y = true.
Proof. unfold ltb, leb, SFltb, SFleb. by destruct (SFcompare x y) as [[]|]. Qed.

(** Two numbers other than NaN are comparable. *)
Lemma leb_total x y :
  isNaN x = false → isNaN y = false → ltb y x = false → leb x y = true.
Proof. destruct x, y; intros; order_cases. Qed.

Lemma leb_trans x y z : leb x y = true → leb y z = true → leb x z = true.
Proof. destruct x, y, z; intros; order_cases. Qed.

Lemma ltb_irrefl_eqb x y z :
  SFeqb x z = true → SFeqb y z = true → ltb x y = false.
Proof. destruct x, y, z; intros; order_cases. Qed.

Lemma SFeqb_refl x : isNaN x = false → SFeqb x x = true.
Proof.
  destruct x as [s|s| |s m e]; try done; intros _;
    unfold SFeqb, SFcompare; destruct s; try done;
    by rewrite Z.compare_refl, Pos.compare_cont_refl.
Qed.

Lemma leb_antisym x y : leb x y = true → leb y x = true → SFeqb x y = true.
Proof. destruct x, y; intros; order_cases. Qed.
End OrderFacts.

(** ** The sign of a difference *)

Section DifferenceFacts.
Local Open Scope Z_scope.
Implicit Types (x y : number).

Local Ltac unfold_fexp :=
  unfold SpecFloat.fexp, SpecFloat.emin, prec, emax in *.

(** What [bounded] says of a mantissa and its exponent. *)
Lemma bounded_digits m e :
  bounded prec emax m e = true →
  SpecFloat.emin prec emax ≤ e
  ∧ Zpos m < 2 ^ prec
  ∧ (SpecFloat.emin prec emax < e → 2 ^ (prec - 1) ≤ Zpos m).
Proof.
  unfold bounded, canonical_mantissa.
  intros [Hcan%Z.eqb_eq _]%andb_true_iff.
  pose proof (Zdigits2_bounds (Zpos m) eq_refl) as [Hlo Hhi]. simpl in Hlo, Hhi.
  set (d := Zpos (digits2_pos m)) in *.
  split; [unfold_fexp; lia|]. split.
  - eapply Z.lt_le_trans; [exact Hhi|].
    apply Z.pow_le_mono_r; [lia|]. unfold_fexp. lia.
  - intros He. replace (prec - 1) with (d - 1); [done|]. unfold_fexp. lia.
Qed.

(** On binary64 values [SFcompare] compares the values: the mantissas
    brought to the smaller of the two exponents. *)
Lemma SFcompare_finite sx mx ex sy my ey :
  bounded prec emax mx ex = true → bounded prec emax my ey = true →
  SFcompare (S754_finite sx mx ex) (S754_finite sy my ey)
  = Some (Z.compare
            (cond_Zopp sx (Zpos mx * 2 ^ (ex - Z.min ex ey)))
            (cond_Zopp sy (Zpos my * 2 ^ (ey - Z.min ex ey)))).
Proof.
  intros (Hex & Hmx & Hnx)%bounded_digits (Hey & Hmy & Hny)%bounded_digits.
  assert (Hpx : 0 < 2 ^ (ex - Z.min ex ey)) by (apply Z.pow_pos_nonneg; lia).
  assert (Hpy : 0 < 2 ^ (ey - Z.min ex ey)) by (apply Z.pow_pos_nonneg; lia).
  assert (Hhalf : 2 ^ prec = 2 * 2 ^ (prec - 1)) by done.
  assert (Hcmp : (Zpos mx * 2 ^ (ex - Z.min ex ey)
                  ?= Zpos my * 2 ^ (ey - Z.min ex ey))
                 = match ex ?= ey with
                   | Lt => Lt
                   | Gt => Gt
                   | Eq => (Zpos mx ?= Zpos my)
                   end).
  { destruct (Z.compare_spec ex ey) as [->|Hlt|Hgt].
    - rewrite Z.min_id, Z.sub_diag. simpl. by rewrite !Pos.mul_1_r.
    - apply Z.compare_lt_iff.
      replace (ex - Z.min ex ey) with 0 by lia.
      replace (ey - Z.min ex ey) with (ey - ex) in * by lia.
      pose proof (Z.pow_le_mono_r 2 1 (ey - ex) ltac:(lia) ltac:(lia)).
      specialize (Hny ltac:(lia)). change (2 ^ 1) with 2 in *.
      change (2 ^ 0) with 1. nia.
    - apply Z.compare_gt_iff.
      replace (ey - Z.min ex ey) with 0 by lia.
      replace (ex - Z.min ex ey) with (ex - ey) in * by lia.
      pose proof (Z.pow_le_mono_r 2 1 (ex - ey) ltac:(lia) ltac:(lia)).
      specialize (Hnx ltac:(lia)). change (2 ^ 1) with 2 in *.
      change (2 ^ 0) with 1. nia. }
  unfold SFcompare. f_equal.
  change (Pos.compare_cont Eq mx my) with (Zpos mx ?= Zpos my).
  destruct sx, sy; simpl cond_Zopp.
  - rewrite Z.compare_opp, (Z.compare_antisym _ (Zpos my * _)), Hcmp.
    by destruct (ex ?= ey), (Zpos mx ?= Zpos my).
  - symmetry. apply Z.compare_lt_iff. nia.
  - symmetry. apply Z.compare_gt_iff. nia.
  - by rewrite Hcmp.
Qed.

(** A result of [binary_round_aux] with the positive sign is not below
    zero. *)
Lemma binary_round_aux_sign m e l :
  ltb (binary_round_aux prec emax false m e l) (S754_zero false) = false.
Proof.
  unfold binary_round_aux.
  destruct (shr_fexp prec emax m e l) as [mrs' e'].
  destruct (shr_fexp prec emax _ e' loc_Exact) as [mrs'' e''].
  destruct (shr_m mrs''); [done| |done]. by destruct (Z.leb e'' _).
Qed.

(** Rounding an integer multiple of a power of two that is not below
    the smallest exponent keeps its sign: no difference of two binary64
    values rounds to zero unless it is zero. *)
Lemma binary_normalize_sign z e :
  SpecFloat.emin prec emax ≤ e →
  ltb (binary_normalize prec emax z e false) (S754_zero false) = (z <? 0).
Proof.
  intros He. destruct z as [|p|p]; simpl; [done| |].
  - unfold binary_round. destruct (shl_align _ _ _).
    apply binary_round_aux_sign.
  - unfold binary_round.
    destruct (shl_align_spec p e (SpecFloat.fexp prec emax (Zpos (digits2_pos p) + e)))
      as [Hmz Hez].
    destruct (shl_align p e _) as [mz ez]. simpl in Hmz, Hez.
    destruct (binary_round_aux_positive true (Zpos mz) ez loc_Exact)
      as [(m' & e' & ->)| ->]; try done.
    pose proof (Zdigits2_bounds (Zpos mz) eq_refl).
    assert (0 < Zdigits2 (Zpos mz)) by done.
    unfold_fexp. lia.
Qed.

(** The comparator's subtraction is negative exactly when its first
    operand is the smaller one. *)
Lemma sub_negative x y :
  valid_binary prec emax x = true → valid_binary prec emax y = true →
  ltb (sub x y) (S754_zero false) = ltb x y.
Proof.
  destruct x as [sx|sx| |sx mx ex], y as [sy|sy| |sy my ey];
    try (intros _ _; by repeat match goal with s : bool |- _ => destruct s end).
  simpl valid_binary. intros Hx Hy.
  unfold ltb at 2. unfold SFltb. rewrite SFcompare_finite by done.
  unfold sub, SFsub.
  destruct (shl_align_spec mx ex (Z.min ex ey)) as [-> _].
  destruct (shl_align_spec my ey (Z.min ex ey)) as [-> _].
  apply bounded_digits in Hx as (Hex & _). apply bounded_digits in Hy as (Hey & _).
  rewrite binary_normalize_sign by lia.
  replace (Z.min ex (Z.min ex ey)) with (Z.min ex ey) by lia.
  replace (Z.min ey (Z.min ex ey)) with (Z.min ex ey) by lia.
  set (a := cond_Zopp sx _). set (b := cond_Zopp sy _).
  destruct (Z.compare_spec a b); destruct (Z.ltb_spec (a - b) 0); lia || done.
Qed.
End DifferenceFacts.

(** ** The sort *)

Section SortFacts.
Context {A : Type} (comparefn : A → A → number).
Implicit Types (x y : A) (l : list A).

Lemma Array_insert_perm x l : Array_insert comparefn x l ≡ₚ x :: l.
Proof.
  induction l as [|y l IH]; simpl; [done|].
  destruct (ltb _ _); [|done]. rewrite IH. apply perm_swap.
Qed.

Lemma Array_sort_perm l : Array_sort comparefn l ≡ₚ l.
Proof.
  induction l as [|x l IH]; simpl; [done|].
  rewrite Array_insert_perm. by constructor.
Qed.

(** Elements that the comparator never puts strictly before one
    another keep their relative order. *)
Lemma Array_insert_filter (P : A → bool) x l :
  (∀ y, y ∈ l → P x = true → P y = true →
        ltb (comparefn y x) (S754_zero false) = false) →
  List.filter P (Array_insert comparefn x l) = List.filter P (x :: l).
Proof.
  induction l as [|y l IH]; intros Hcmp; [done|].
  cbn [Array_insert].
  destruct (ltb (comparefn y x) (S754_zero false)) eqn:Hlt; [|done].
  cbn [List.filter]. rewrite IH by (intros; apply Hcmp; [by right|done..]).
  cbn [List.filter].
  destruct (P x) eqn:Hx, (P y) eqn:Hy; try done.
  rewrite Hcmp in Hlt; [done|by left|done..].
Qed.

Lemma Array_sort_filter (P : A → bool) l :
  (∀ x y, x ∈ l → y ∈ l → P x = true → P y = true →
          ltb (comparefn y x) (S754_zero false) = false) →
  List.filter P (Array_sort comparefn l) = List.filter P l.
Proof.
  induction l as [|x l IH]; intros Hcmp; [done|].
  cbn [Array_sort fold_right].
  rewrite Array_insert_filter.
  - cbn [List.filter]. fold (Array_sort comparefn l).
    rewrite IH; [done|]. intros; apply Hcmp; by try right.
  - intros y Hy Hx HPy. fold (Array_sort comparefn l) in Hy.
    rewrite Array_sort_perm in Hy. apply Hcmp; [by left|by right|done..].
Qed.

(** Sortedness, when the comparator is the difference of a key that is
    a binary64 value other than NaN. *)
Context (key : A → number).
Hypothesis comparefn_key : ∀ x y, comparefn x y = sub (key x) (key y).

Lemma Array_insert_sorted x l :
  keyIsNumber key x → Forall (keyIsNumber key) l →
  StronglySorted (keyOrdered key) l →
  StronglySorted (keyOrdered key) (Array_insert comparefn x l).
Proof.
  intros [Hvx Hnx] Hgood Hsorted.
  induction Hsorted as [|y l Hsorted IH Hall]; simpl.
  - repeat constructor.
  - apply Forall_cons in Hgood as [[Hvy Hny] Hgood].
    rewrite comparefn_key, sub_negative by done.
    destruct (ltb (key y) (key x)) eqn:Hlt.
    + constructor; [by apply IH|].
      rewrite Array_insert_perm. constructor; [by apply ltb_leb|done].
    + assert (Hxy : keyOrdered key x y) by by apply leb_total.
      constructor; [by constructor|].
      constructor; [done|].
      eapply Forall_impl; [exact Hall|]. intros z Hyz.
      by apply (leb_trans _ (key y)).
Qed.

Lemma Array_sort_sorted l :
  Forall (keyIsNumber key) l →
  StronglySorted (keyOrdered key) (Array_sort comparefn l).
Proof.
  induction l as [|x l IH]; intros Hgood; simpl; [constructor|].
  apply Forall_cons in Hgood as [Hx Hgood].
  apply Array_insert_sorted; [done| |by apply IH].
  by rewrite Array_sort_perm.
Qed.

(** The model of [sort] is no choice among several: a list that is in
    the order of the keys and keeps the elements of equal key in the order
    of the input is unique. *)
Lemma sorted_stable_unique l1 l2 :
  Forall (keyIsNumber key) l1 → Forall (keyIsNumber key) l2 →
  StronglySorted (keyOrdered key) l1 → StronglySorted (keyOrdered key) l2 →
  (∀ k, List.filter (fun a => SFeqb (key a) k) l1
        = List.filter (fun a => SFeqb (key a) k) l2) →
  l1 = l2.
Proof.
  revert l2. induction l1 as [|a l1 IH]; intros l2 Hn1 Hn2 Hs1 Hs2 Hties.
  - destruct l2 as [|b l2]; [done|]. apply Forall_cons in Hn2 as [[_ Hb] _].
    specialize (Hties (key b)). simpl in Hties. by rewrite SFeqb_refl in Hties.
  - apply Forall_cons in Hn1 as [[Hva Hna] Hn1].
    apply StronglySorted_inv in Hs1 as [Hs1 Hall1].
    destruct l2 as [|b l2].
    { specialize (Hties (key a)). simpl in Hties. by rewrite SFeqb_refl in Hties. }
    apply Forall_cons in Hn2 as [[Hvb Hnb] Hn2].
    apply StronglySorted_inv in Hs2 as [Hs2 Hall2].
    assert (Hab : a = b).
    { pose proof (Hties (key a)) as Ha. pose proof (Hties (key b)) as Hb.
      simpl in Ha, Hb. rewrite SFeqb_refl in Ha, Hb by done.
      destruct (SFeqb (key b) (key a)) eqn:Hba; [by injection Ha|].
      destruct (SFeqb (key a) (key b)) eqn:Hab'; [by injection Hb|].
      assert (Hin_a : a ∈ l2).
      { apply list_elem_of_In.
        eapply (proj1 (filter_In (fun a0 => SFeqb (key a0) (key a)) a l2)).
        rewrite <- Ha. by left. }
      assert (Hin_b : b ∈ l1).
      { apply list_elem_of_In.
        eapply (proj1 (filter_In (fun a0 => SFeqb (key a0) (key b)) b l1)).
        rewrite Hb. by left. }
      rewrite Forall_forall in Hall1, Hall2.
      pose proof (leb_antisym _ _ (Hall1 b Hin_b) (Hall2 a Hin_a)). congruence. }
    subst b. f_equal. apply IH; try done.
    intros k. specialize (Hties k). simpl in Hties.
    destruct (SFeqb (key a) k); [by injection Hties|done].
Qed.

(** So any stable sort by this comparator returns what [Array_sort]
    returns. *)
Lemma Array_sort_unique l l' :
  Forall (keyIsNumber key) l →
  l' ≡ₚ l →
  StronglySorted (keyOrdered key) l' →
  (∀ k, List.filter (fun a => SFeqb (key a) k) l'
        = List.filter (fun a => SFeqb (key a) k) l) →
  l' = Array_sort comparefn l.
Proof.
  intros Hn Hperm Hsorted Hties.
  apply sorted_stable_unique; try done.
  - by rewrite Hperm.
  - by rewrite Array_sort_perm.
  - by apply Array_sort_sorted.
  - intros k. rewrite Hties. symmetry. apply Array_sort_filter.
    intros x y Hx Hy Hkx Hky. rewrite Forall_forall in Hn.
    rewrite comparefn_key, sub_negative by (by apply Hn).
    by eapply ltb_irrefl_eqb.
Qed.
End SortFacts.

(** ** Ranking and filtering *)

Section RankingFacts.
Context `{Engine}.
Implicit Types (school a b : School.t) (position : Position).

Lemma StronglySorted_weaken {A} (P : A → Prop) (R R' : A → A → Prop) (l : list A) :
  Forall P l →
  (∀ x y, P x → P y → R x y → R' x y) →
  StronglySorted R l → StronglySorted R' l.
Proof.
  intros HP Himpl Hsorted.
  induction Hsorted as [|x l _ IH Hall]; [constructor|].
  apply Forall_cons in HP as [Hx HP]. constructor; [by apply IH|].
  rewrite Forall_forall in *. intros y Hy. apply Himpl; auto.
Qed.

Lemma orZero_valid x :
  valid_binary prec emax x = true → valid_binary prec emax (orZero x) = true.
Proof. by destruct x. Qed.

Lemma orZero_not_NaN x : isNaN (orZero x) = false.
Proof. by destruct x. Qed.

(** The key of the comparator orders like the distance itself, NaN
    aside. *)
Lemma orZero_leb_not_ltb x y :
  leb (orZero x) (orZero y) = true → ltb y x = false.
Proof.
  destruct x as [sx|sx| |sx mx ex], y as [sy|sy| |sy my ey]; simpl;
    unfold leb, ltb, SFleb, SFltb, SFcompare;
    repeat match goal with s : bool |- _ => destruct s end; try done;
    repeat match goal with
    | |- context [Z.compare ?a ?b] => destruct (Z.compare_spec a b)
    | |- context [Pos.compare_cont Eq ?a ?b] =>
        change (Pos.compare_cont Eq a b) with (Pos.compare a b);
        destruct (Pos.compare_spec a b)
    end; simpl; try done; lia.
Qed.

Lemma orZero_leb x y :
  isNaN x = false → isNaN y = false →
  leb (orZero x) (orZero y) = true → leb x y = true.
Proof.
  destruct x as [sx|sx| |sx mx ex], y as [sy|sy| |sy my ey]; simpl;
    try done; unfold leb, SFleb, SFcompare;
    repeat match goal with s : bool |- _ => destruct s end; done.
Qed.

Lemma orZero_eqb x d : SFeqb x d = true → SFeqb (orZero x) (orZero d) = true.
Proof.
  destruct x as [sx|sx| |sx mx ex], d as [sd|sd| |sd md ed]; simpl;
    try done; unfold SFeqb, SFcompare;
    repeat match goal with s : bool |- _ => destruct s end; done.
Qed.

Lemma distanceOrZero_withDistance position school :
  distanceOrZero (withDistance position school)
  = orZero (calculateDistance (pos_latitude position) (pos_longitude position)
                              (School.latitude school) (School.longitude school)).
Proof. done. Qed.

(** With its distance set an institution has a key that is a binary64
    value other than NaN. *)
Lemma withDistance_key position school :
  valid_binary prec emax (distanceOrZero (withDistance position school)) = true
  ∧ isNaN (distanceOrZero (withDistance position school)) = false.
Proof.
  rewrite distanceOrZero_withDistance. split.
  - apply orZero_valid, parseFloat_valid.
  - apply orZero_not_NaN.
Qed.

(** Institutions whose keys are equal are never reordered. *)
Lemma byDistance_ties position (l : list School.t) (P : School.t → bool) k :
  (∀ a, P a = true → SFeqb (distanceOrZero a) k = true) →
  List.filter P (schoolsWithDistances l position)
  = List.filter P (withDistance position <$> l).
Proof.
  intros HP. apply Array_sort_filter.
  intros a b (a0 & -> & _)%list_elem_of_fmap (b0 & -> & _)%list_elem_of_fmap Ha Hb.
  unfold byDistance.
  rewrite sub_negative by apply withDistance_key.
  eapply ltb_irrefl_eqb; by apply HP.
Qed.
End RankingFacts.

Section RankingClaims.
Context `{Engine}.
Implicit Types (school a b : School.t) (position : Position).

(** C8, amended.  Ranking stores as the list of institutions a
    permutation of its input with the distance from the reference
    position set by the distance function.
    The result is in ascending order of the comparator's key, the
    distance with NaN read as 0; so no institution comes after one that
    is strictly farther, and when no distance is NaN the distances
    themselves ascend.  The sort is stable: the institutions at one
    distance, and those with one key, keep their order of the input. *)
Theorem ranking_sorted_stable (schoolList : list School.t) position :
  let ranked := schoolsWithDistances schoolList position in
  (∀ st, schools (calculateDistances st schoolList position) = ranked)
  ∧ ranked ≡ₚ withDistance position <$> schoolList
  ∧ Forall (fun school =>
              School.distance school
              = Some (calculateDistance
                        (pos_latitude position) (pos_longitude position)
                        (School.latitude school) (School.longitude school)))
           ranked
  ∧ StronglySorted (keyOrdered distanceOrZero) ranked
  ∧ StronglySorted (fun a b => nearer b a = false) ranked
  ∧ (Forall (fun school => isNaN (distanceOf school) = false) ranked →
     StronglySorted (fun a b => notFarther a b = true) ranked)
  ∧ (∀ d, List.filter (atDistance d) ranked
          = List.filter (atDistance d) (withDistance position <$> schoolList))
  ∧ (∀ k, List.filter (fun school => SFeqb (distanceOrZero school) k) ranked
          = List.filter (fun school => SFeqb (distanceOrZero school) k)
                        (withDistance position <$> schoolList)).
Proof.
  intros ranked.
  assert (Hperm : ranked ≡ₚ withDistance position <$> schoolList)
    by apply Array_sort_perm.
  assert (Hset : Forall (fun school => ∃ school0, school = withDistance position school0)
                        ranked).
  { rewrite Hperm. apply Forall_fmap, Forall_true. intros school0. by exists school0. }
  assert (Hsorted : StronglySorted (keyOrdered distanceOrZero) ranked).
  { apply (Array_sort_sorted byDistance distanceOrZero); [done|].
    apply Forall_fmap, Forall_true. intros school0. apply withDistance_key. }
  split; [done|]. split; [done|]. split.
  { eapply Forall_impl; [exact Hset|]. by intros school [school0 ->]. }
  split; [done|]. split.
  { revert Hsorted. apply (StronglySorted_weaken (fun _ => True)).
    - by apply Forall_true.
    - intros a b _ _. unfold keyOrdered, nearer, distanceOf, distanceOrZero.
      destruct (School.distance a) as [da|], (School.distance b) as [db|];
        simpl; intros Hle.
      + by apply orZero_leb_not_ltb.
      + done.
      + by destruct db.
      + done. }
  split.
  { intros Hnan. revert Hsorted.
    apply (StronglySorted_weaken
             (fun school => is_Some (School.distance school)
                            ∧ isNaN (distanceOf school) = false)).
    - rewrite Forall_forall in *. intros school Hin. split; [|by apply Hnan].
      by destruct (Hset school Hin) as [school0 ->].
    - intros a b [[da Ha] Hna] [[db Hb] Hnb].
      unfold keyOrdered, notFarther, distanceOf, distanceOrZero in *.
      rewrite Ha, Hb in *. simpl in *. by apply orZero_leb. }
  split.
  - intros d. apply (byDistance_ties _ _ _ (orZero d)).
    intros a. unfold atDistance, distanceOf, distanceOrZero.
    destruct (School.distance a) as [da|]; simpl; [apply orZero_eqb|done].
  - intros k. by apply (byDistance_ties _ _ _ k).
Qed.

Lemma filter_sublist {A} (f : A → bool) (l : list A) :
  List.filter f l `sublist_of` l.
Proof.
  induction l as [|x l IH]; simpl; [done|].
  destruct (f x); by constructor.
Qed.

(** C9.  Filtering only removes elements: what it keeps is a
    subsequence of its input, so each surviving institution is the
    institution of the input, with its distance, and the survivors are
    in the order of the input; the list of all institutions in the state
    is left as it was. *)
Theorem filtering_only_removes (st : AppState) (schoolList : list School.t)
    (sector : SectorFilter) (level : LevelFilter) :
  filteredSchools (applyFilters st schoolList sector level) `sublist_of` schoolList
  ∧ School.distance <$> filteredSchools (applyFilters st schoolList sector level)
    `sublist_of` School.distance <$> schoolList
  ∧ schools (applyFilters st schoolList sector level) = schools st.
Proof.
  assert (Hsub : filtered schoolList sector level `sublist_of` schoolList).
  { unfold filtered. destruct level, sector;
      repeat (try done; try (etrans; [apply filter_sublist|])). }
  split; [done|]. split; [|done]. by apply fmap_sublist.
Qed.
End RankingClaims.

(** C8 for the sample engine: the institutions of the sample file ranked
    from Lille, none at a distance that is NaN. *)
Lemma ranking_sorted_stable_witness :
  StronglySorted (fun a b => notFarther a b = true)
                 (@schoolsWithDistances SampleEngine.engine sampleSchools lille).
Proof.
  apply (@ranking_sorted_stable SampleEngine.engine sampleSchools lille).
  vm_compute. repeat constructor.
Defined.

(** C8, counterexample.  Two rows of the college format, the first with
    the latitude [Infinity], ranked from Lille: the first institution
    gets the distance NaN and the key 0, so it stays first, before an
    institution at a distance that is a number; NaN is not [<=] to it. *)
Lemma infinite_latitude_ranked_first : ¬ ranking_ascending_stable.
Proof.
  intros Hclaim.
  destruct (Hclaim GuardedEngine.engine GuardedEngine_conforming
                   (csvRowsToSchools infinityThenFiniteRows) lille)
    as (_ & _ & Hsorted & _).
  vm_compute in Hsorted.
  inversion Hsorted as [|a l _ Hall]; subst.
  inversion Hall as [|b l' Hab _]; subst. discriminate.
Qed.

(** * Further properties *)

(** ** More on the tabular parser *)

Section ParserMore.
Implicit Types (s t line cell : jsstring) (row : CSVRow).

Lemma join_cons_cons sep c (first : jsstring) (others : list jsstring) :
  join sep ((c :: first) :: others) = c :: join sep (first :: others).
Proof. by destruct others. Qed.

Lemma join_cons sep (p q : jsstring) (others : list jsstring) :
  join sep (p :: q :: others) = p ++ sep ++ join sep (q :: others).
Proof. done. Qed.

Lemma parseCSVLine_from_join line sep inQuotes :
  join sep (parseCSVLine_from line sep [] [] inQuotes) = withoutDquotes line.
Proof.
  revert inQuotes. induction line as [|char rest IH]; intros inQuotes; [done|].
  cbn [parseCSVLine_from]. unfold withoutDquotes. cbn [List.filter].
  fold (withoutDquotes rest).
  destruct (char =? char_dquote) eqn:Hq; cbn [negb]; [apply IH|].
  destruct (bool_decide ([char] = sep) && negb inQuotes) eqn:Hsep.
  - apply andb_true_iff in Hsep as [<-%bool_decide_eq_true _].
    rewrite parseCSVLine_from_acc.
    pose proof (parseCSVLine_from_nonempty rest [char] [] [] inQuotes) as Hne.
    specialize (IH inQuotes).
    destruct (parseCSVLine_from rest [char] [] [] inQuotes) as [|first others];
      [done|].
    cbn [Datatypes.app]. by rewrite join_cons, IH.
  - rewrite parseCSVLine_from_acc.
    pose proof (parseCSVLine_from_nonempty rest sep [] [] inQuotes) as Hne.
    specialize (IH inQuotes).
    destruct (parseCSVLine_from rest sep [] [] inQuotes) as [|first others];
      [done|].
    cbn [Datatypes.app]. by rewrite join_cons_cons, IH.
Qed.

(** X1.  Splitting a line loses nothing but the double quotes: the
    fields of a line, joined again with the separator, are the line
    without its double quotes. *)
Theorem parseCSVLine_join line separator :
  join separator (parseCSVLine line separator) = withoutDquotes line.
Proof. apply parseCSVLine_from_join. Qed.

(** X2.  On a line without double quotes the quote-aware splitting is the
    plain splitting on the separator. *)
Theorem parseCSVLine_plain line sep :
  sep ≠ char_dquote → char_dquote ∉ line →
  parseCSVLine line [sep] = split sep line.
Proof.
  intros Hsep. induction line as [|char rest IH]; intros Hq; [done|].
  apply not_elem_of_cons in Hq as [Hc Hq]. specialize (IH Hq).
  unfold parseCSVLine in *. cbn [parseCSVLine_from split].
  replace (char =? char_dquote) with false
    by (symmetry; apply N.eqb_neq; congruence).
  rewrite andb_true_r.
  destruct (N.eqb_spec char sep) as [->|Hne].
  - rewrite bool_decide_eq_true_2 by done.
    by rewrite parseCSVLine_from_closed, <- IH.
  - rewrite bool_decide_eq_false_2 by congruence.
    rewrite parseCSVLine_from_acc, IH.
    pose proof (parseCSVLine_from_nonempty rest [sep] [] [] false) as Hne'.
    rewrite IH in Hne'. by destruct (split sep rest).
Qed.

Lemma parseCSVLine_plain_witness :
  parseCSVLine (lit "1;2;3") [char_semicolon] = [lit "1"; lit "2"; lit "3"].
Proof.
  rewrite (parseCSVLine_plain (lit "1;2;3") char_semicolon).
  - reflexivity.
  - discriminate.
  - intros Hin%list_elem_of_In. vm_compute in Hin. intuition discriminate.
Defined.

Lemma split_without_sep sep s : sep ∉ s → split sep s = [s].
Proof.
  induction s as [|c s IH]; intros Hs; [done|].
  apply not_elem_of_cons in Hs as [Hc Hs]. simpl.
  replace (c =? sep) with false by (symmetry; apply N.eqb_neq; congruence).
  by rewrite IH.
Qed.

(** X3.  A text that, once trimmed, has a single line (the empty text, a
    header alone) gives no mapping. *)
Theorem parseCSV_single_line csvText :
  char_newline ∉ trim csvText → parseCSV csvText = [].
Proof.
  intros Hnl. unfold parseCSV. by rewrite split_without_sep.
Qed.

Lemma parseCSV_single_line_witness :
  parseCSV (lit "  nom;lat;lon  ") = [] ∧ parseCSV [] = [].
Proof.
  split; apply parseCSV_single_line;
    intros Hin%list_elem_of_In; vm_compute in Hin; intuition discriminate.
Defined.

Lemma fillRow_untouched row headers values k :
  k ∉ headers → fillRow row headers values !! k = row !! k.
Proof.
  revert row values. induction headers as [|h hs IH]; intros row [|v vs] Hk;
    try done.
  apply not_elem_of_cons in Hk as [Hne Hk]. simpl. rewrite IH by done.
  unfold assign. case_bool_decide; [done|]. by rewrite lookup_insert_ne.
Qed.

Lemma fillRow_column row headers values i h v :
  NoDup headers → proto_key ∉ headers →
  headers !! i = Some h → values !! i = Some v →
  fillRow row headers values !! h = Some (stripQuotes (trim v)).
Proof.
  revert row values i. induction headers as [|h0 hs IH];
    intros row [|v0 vs] i Hnd Hproto Hh Hv; try done.
  apply NoDup_cons in Hnd as [Hnotin Hnd].
  apply not_elem_of_cons in Hproto as [Hp0 Hproto].
  destruct i as [|i]; simpl in *.
  - simplify_eq. rewrite fillRow_untouched by done.
    unfold assign. rewrite bool_decide_eq_false_2 by congruence.
    apply lookup_insert_eq.
  - by eapply IH.
Qed.

Lemma fillRow_keys row headers values k :
  is_Some (fillRow row headers values !! k) → is_Some (row !! k) ∨ k ∈ headers.
Proof.
  revert row values. induction headers as [|h hs IH]; intros row [|v vs] Hk;
    simpl in *; auto.
  apply IH in Hk as [Hk|Hk]; [|right; by right].
  unfold assign in Hk. case_bool_decide; [by left|].
  destruct (decide (h = k)) as [->|Hne]; [right; by left|].
  rewrite lookup_insert_ne in Hk by done. by left.
Qed.

Lemma parseCSV_unfold csvText row :
  row ∈ parseCSV csvText →
  ∃ line,
    line ∈ dataLines csvText
    ∧ length (parseCSVLine line [char_semicolon]) = length (headersOf csvText)
    ∧ row = fillRow ∅ (headersOf csvText) (parseCSVLine line [char_semicolon]).
Proof.
  unfold parseCSV, dataLines, headersOf. intros Hrow.
  destruct (_ <? _)%nat; [by apply elem_of_nil in Hrow|].
  apply list_elem_of_omap in Hrow as (line & Hline & Hsome).
  destruct (Nat.eqb_spec (length (parseCSVLine line [char_semicolon]))
              (length (List.map (fun h => stripQuotes (trim h))
                 (split char_semicolon
                    (List.hd [] (split char_newline (trim csvText)))))))
    as [Hlen|]; [|done].
  simplify_eq. by exists line.
Qed.

(** X4.  When the header names are distinct (and none is [__proto__]),
    each mapping holds, under every header, the cell of the same column
    of its data line, trimmed and stripped of quotes; the line has as
    many cells as there are headers. *)
Theorem parseCSV_columns csvText row :
  NoDup (headersOf csvText) → proto_key ∉ headersOf csvText →
  row ∈ parseCSV csvText →
  ∃ line,
    line ∈ dataLines csvText
    ∧ length (parseCSVLine line [char_semicolon]) = length (headersOf csvText)
    ∧ ∀ i header,
        headersOf csvText !! i = Some header →
        row !! header
        = (fun cell => stripQuotes (trim cell))
            <$> parseCSVLine line [char_semicolon] !! i.
Proof.
  intros Hnd Hproto (line & Hline & Hlen & ->)%parseCSV_unfold.
  exists line. repeat split; try done. intros i header Hh.
  destruct (parseCSVLine line [char_semicolon] !! i) as [cell|] eqn:Hcell.
  - by eapply fillRow_column.
  - apply lookup_ge_None in Hcell. apply lookup_lt_Some in Hh. lia.
Qed.

Lemma parseCSV_columns_witness :
  ∃ line,
    line ∈ dataLines quotedDelimiterText
    ∧ length (parseCSVLine line [char_semicolon])
      = length (headersOf quotedDelimiterText)
    ∧ ∀ i header,
        headersOf quotedDelimiterText !! i = Some header →
        ({[ lit "a" := lit "x;y"; lit "b" := lit "z" ]} : CSVRow) !! header
        = (fun cell => stripQuotes (trim cell))
            <$> parseCSVLine line [char_semicolon] !! i.
Proof.
  apply (parseCSV_columns quotedDelimiterText).
  - vm_compute. repeat constructor; intros Hin%list_elem_of_In;
      simpl in Hin; intuition discriminate.
  - intros Hin%list_elem_of_In. vm_compute in Hin. intuition discriminate.
  - assert (parseCSV quotedDelimiterText
            = [ {[ lit "a" := lit "x;y"; lit "b" := lit "z" ]} ]) as ->
      by (vm_compute; reflexivity).
    by left.
Defined.

(** X5.  The keys of a mapping are header names, and there are no more
    mappings than data lines. *)
Theorem parseCSV_keys_are_headers csvText :
  (∀ row k, row ∈ parseCSV csvText → is_Some (row !! k) → k ∈ headersOf csvText)
  ∧ (length (parseCSV csvText) ≤ length (dataLines csvText))%nat.
Proof.
  split.
  - intros row k (line & _ & _ & ->)%parseCSV_unfold Hk.
    apply fillRow_keys in Hk as [Hk|Hk]; [|done].
    rewrite lookup_empty in Hk. by destruct Hk.
  - unfold parseCSV, dataLines. destruct (_ <? _)%nat; [simpl; lia|].
    apply omap_length_le.
Qed.

Lemma parseCSV_keys_are_headers_witness :
  lit "a" ∈ headersOf quotedDelimiterText.
Proof.
  apply (proj1 (parseCSV_keys_are_headers quotedDelimiterText)
               {[ lit "a" := lit "x;y"; lit "b" := lit "z" ]}).
  - assert (parseCSV quotedDelimiterText
            = [ {[ lit "a" := lit "x;y"; lit "b" := lit "z" ]} ]) as ->
      by (vm_compute; reflexivity).
    by left.
  - vm_compute. eauto.
Defined.
End ParserMore.

Section LineEndings.
Implicit Types (s t line cell : jsstring) (row : CSVRow).

Lemma trimStart_snoc_ws s c :
  isWhiteSpace c = true →
  (trimStart (s ++ [c]) = [] ∧ trimStart s = [])
  ∨ trimStart (s ++ [c]) = trimStart s ++ [c].
Proof.
  intros Hc. induction s as [|d s IH]; simpl.
  - rewrite Hc. by left.
  - destruct (isWhiteSpace d); [done|by right].
Qed.

(** White space at the end of a cell is trimmed away. *)
Lemma trim_snoc_ws s c : isWhiteSpace c = true → trim (s ++ [c]) = trim s.
Proof.
  intros Hc. unfold trim, trimEnd.
  destruct (trimStart_snoc_ws s c Hc) as [[-> ->]| ->]; [done|].
  rewrite rev_app_distr. simpl. by rewrite Hc.
Qed.

(** A code unit that is neither a double quote nor the separator, put at
    the end of a line, ends up at the end of the last field. *)
Lemma parseCSVLine_from_snoc line sep c result current inQuotes :
  c ≠ char_dquote → [c] ≠ sep →
  ∃ init last,
    parseCSVLine_from line sep result current inQuotes = init ++ [last]
    ∧ parseCSVLine_from (line ++ [c]) sep result current inQuotes
      = init ++ [last ++ [c]].
Proof.
  intros Hq Hsep. revert result current inQuotes.
  induction line as [|char rest IH]; intros result current inQuotes; simpl.
  - replace (c =? char_dquote) with false
      by (symmetry; apply N.eqb_neq; congruence).
    rewrite bool_decide_eq_false_2 by done. simpl. by exists result, current.
  - destruct (char =? char_dquote); [apply IH|].
    destruct (_ && _); apply IH.
Qed.

(** X6.  A carriage return at the end of a data line (a line of a file
    with Windows line endings) changes neither the number of fields nor
    the mapping built from the line. *)
Theorem parseCSVLine_carriage_return line headers :
  length (parseCSVLine (line ++ [char_cr]) [char_semicolon])
  = length (parseCSVLine line [char_semicolon])
  ∧ fillRow ∅ headers (parseCSVLine (line ++ [char_cr]) [char_semicolon])
    = fillRow ∅ headers (parseCSVLine line [char_semicolon]).
Proof.
  destruct (parseCSVLine_from_snoc line [char_semicolon] char_cr [] [] false)
    as (init & last & Hline & Hcr); [done..|].
  unfold parseCSVLine. rewrite Hline, Hcr. split.
  - by rewrite !length_app.
  - clear Hline Hcr. generalize (∅ : CSVRow). revert headers.
    induction init as [|cell init IH]; intros [|h hs] row; simpl; try done.
    by rewrite trim_snoc_ws.
Qed.
End LineEndings.

(** ** More on the entity normaliser *)

Section NormaliserMore.
Local Open Scope nat_scope.
Implicit Types (row : CSVRow) (index : nat) (school : School.t).

Lemma csvRowsToSchools_nil rows :
  (∀ row index, row ∈ rows → rowToSchool row index = None) →
  csvRowsToSchools rows = [].
Proof.
  intros Hnone. destruct (csvRowsToSchools rows) as [|school l] eqn:Hs; [done|].
  assert (Hin : school ∈ csvRowsToSchools rows) by (rewrite Hs; by left).
  apply elem_of_csvRowsToSchools in Hin as (index & row & Hrow & Hsome).
  rewrite Hnone in Hsome; [done|]. by eapply list_elem_of_lookup_2.
Qed.

Lemma find_hasKey_None row keys :
  (∀ key, key ∈ keys → row !! key = None) → List.find (hasKey row) keys = None.
Proof.
  induction keys as [|key keys IH]; intros Hnone; [done|]. simpl.
  unfold hasKey at 1. rewrite (Hnone key) by by left.
  rewrite bool_decide_eq_false_2 by by intros [? ?].
  apply IH. intros k Hk. apply Hnone. by right.
Qed.

Lemma parseCSV_row_keys csvText row k :
  row ∈ parseCSV csvText → is_Some (row !! k) → k ∈ headersOf csvText.
Proof.
  intros (line & _ & _ & ->)%parseCSV_unfold Hk.
  apply fillRow_keys in Hk as [Hk|Hk]; [|done].
  rewrite lookup_empty in Hk. by destruct Hk.
Qed.

Lemma no_column_no_school csvText :
  (∀ key, key ∈ genericLatKeys → key ∉ headersOf csvText) →
  nameKey ∉ headersOf csvText ∨ positionKey ∉ headersOf csvText →
  csvRowsToSchools (parseCSV csvText) = [].
Proof.
  intros Hlat Hcollege. apply csvRowsToSchools_nil. intros row index Hrow.
  assert (Hnone : ∀ k, k ∉ headersOf csvText → row !! k = None).
  { intros k Hk. destruct (row !! k) eqn:Hl; [|done].
    destruct Hk. apply (parseCSV_row_keys csvText row); [done|].
    rewrite Hl. eauto. }
  unfold rowToSchool, collegeFormat.
  assert (truthy (row !! nameKey) && truthy (row !! positionKey) = false) as ->.
  { destruct Hcollege as [Hk|Hk]; rewrite (Hnone _ Hk); simpl;
      [done|apply andb_false_r]. }
  unfold genericRowToSchool. rewrite find_hasKey_None; [done|].
  intros key Hkey. by apply Hnone, Hlat.
Qed.

(** X7.  A file whose header has none of the latitude column names, and
    lacks one of the two columns of the college format, yields no
    institution, whatever its data lines. *)
Theorem no_coordinate_column_no_school csvText :
  (∀ key, key ∈ genericLatKeys → key ∉ headersOf csvText) →
  nameKey ∉ headersOf csvText ∨ positionKey ∉ headersOf csvText →
  csvRowsToSchools (parseCSV csvText) = [].
Proof. apply no_column_no_school. Qed.

Lemma no_coordinate_column_no_school_witness :
  csvRowsToSchools (parseCSV quotedDelimiterText) = [].
Proof.
  apply no_coordinate_column_no_school.
  - intros key Hkey%list_elem_of_In Hin%list_elem_of_In.
    vm_compute in Hkey, Hin.
    repeat (destruct Hkey as [<-|Hkey]; [intuition discriminate|]). done.
  - left. intros Hin%list_elem_of_In. vm_compute in Hin. intuition discriminate.
Defined.

Lemma split_length sep s : length (split sep s) = S (countChar sep s).
Proof.
  unfold countChar. induction s as [|c s IH]; [done|]. simpl.
  rewrite (N.eqb_sym sep c). destruct (N.eqb c sep); simpl.
  - by rewrite IH.
  - destruct (split sep s); simpl in *; lia.
Qed.

(** X8.  In the college format a position that does not hold exactly one
    comma discards the row. *)
Theorem college_position_one_comma row index :
  collegeFormat row = true →
  countChar char_comma (default [] (row !! positionKey)) ≠ 1 →
  rowToSchool row index = None.
Proof.
  intros Hc Hcount. unfold rowToSchool. rewrite Hc. unfold collegeRowToSchool.
  pose proof (split_length char_comma (default [] (row !! positionKey))) as Hlen.
  destruct (split char_comma _) as [|part0 [|part1 [|? ?]]]; try done.
  simpl in Hlen. lia.
Qed.

Lemma college_position_one_comma_witness :
  rowToSchool {[ lit "appellation_officielle" := lit "École A";
                 lit "position" := lit "48.8" ]} 0 = None.
Proof.
  apply college_position_one_comma; [reflexivity|].
  vm_compute. discriminate.
Defined.

(** X9.  An institution of the college format has a name and a type that
    are not empty (so the tests on [school.name] and [school.type] of the
    filters let it through), the position of its row as id, and no
    distance yet. *)
Theorem college_school_fields row index school :
  collegeFormat row = true →
  rowToSchool row index = Some school →
  truthy (School.name school) = true
  ∧ truthy (School.type school) = true
  ∧ School.id school = index
  ∧ School.distance school = None.
Proof.
  intros Hc. unfold rowToSchool. rewrite Hc.
  apply andb_true_iff in Hc as [Hname _].
  unfold collegeRowToSchool.
  destruct (split _ _) as [|part0 [|part1 [|? ?]]]; try done.
  destruct (isNaN _ || isNaN _); [done|].
  intros [= <-]. simpl. repeat split; [done|].
  destruct (truthy (row !! sectorKey)) eqn:Hsector.
  - destruct (row !! sectorKey) as [[|c sector]|]; try done.
    by destruct (truthy (row !! ipsKey)).
  - by destruct (truthy (row !! ipsKey)).
Qed.

Lemma college_school_fields_witness :
  ∃ school,
    rowToSchool collegeUaiRow 3 = Some school
    ∧ truthy (School.name school) = true
    ∧ truthy (School.type school) = true
    ∧ School.id school = 3
    ∧ School.distance school = None.
Proof.
  destruct (rowToSchool collegeUaiRow 3) as [school|] eqn:Hs;
    [|vm_compute in Hs; discriminate].
  exists school. split; [done|].
  by apply (college_school_fields collegeUaiRow 3).
Defined.
End NormaliserMore.

(** ** More on filtering and ranking *)

Section FilterFacts.
Context {A : Type}.
Implicit Types (f g : A → bool) (l : list A).

Lemma filter_and f g l :
  List.filter f (List.filter g l) = List.filter (fun x => g x && f x) l.
Proof.
  induction l as [|x l IH]; [done|]. simpl.
  destruct (g x); simpl; [|done]. destruct (f x); by rewrite IH.
Qed.

Lemma filter_swap f g l :
  List.filter f (List.filter g l) = List.filter g (List.filter f l).
Proof.
  rewrite !filter_and. apply filter_ext. intros x. apply andb_comm.
Qed.

Lemma filter_fmap {B} (h : B → A) f (l : list B) :
  List.filter f (List.map h l) = List.map h (List.filter (fun x => f (h x)) l).
Proof.
  induction l as [|x l IH]; [done|]. simpl.
  destruct (f (h x)); simpl; by rewrite IH.
Qed.

Lemma map_fixed (h : A → A) l :
  Forall (fun x => h x = x) l → List.map h l = l.
Proof. induction 1 as [|x l Hx _ IH]; simpl; [done|]. by rewrite Hx, IH. Qed.

Lemma filter_perm f l l' : l ≡ₚ l' → List.filter f l ≡ₚ List.filter f l'.
Proof.
  induction 1 as [|x l l' _ IH|x y l|l l' l'' _ IH1 _ IH2]; simpl.
  - done.
  - destruct (f x); by rewrite IH.
  - destruct (f x), (f y); try done. apply perm_swap.
  - by rewrite IH1.
Qed.

Lemma filter_Forall (P : A → Prop) f l :
  Forall P l → Forall P (List.filter f l).
Proof.
  induction 1 as [|x l Hx _ IH]; simpl; [constructor|].
  destruct (f x); [by constructor|done].
Qed.

Lemma filter_sorted (R : A → A → Prop) f l :
  StronglySorted R l → StronglySorted R (List.filter f l).
Proof.
  induction 1 as [|x l _ IH Hall]; simpl; [constructor|].
  destruct (f x); [|done]. constructor; [done|]. by apply filter_Forall.
Qed.
End FilterFacts.

Section SortMore.
Context {A : Type} (comparefn : A → A → number) (key : A → number).
Hypothesis comparefn_key : ∀ x y, comparefn x y = sub (key x) (key y).
Implicit Types (l : list A).

(** Sorting and then keeping the elements that pass a test gives what
    keeping them and then sorting gives. *)
Lemma Array_sort_filter_swap (f : A → bool) l :
  Forall (keyIsNumber key) l →
  List.filter f (Array_sort comparefn l) = Array_sort comparefn (List.filter f l).
Proof.
  intros Hn. apply (Array_sort_unique comparefn key comparefn_key).
  - by apply filter_Forall.
  - apply filter_perm, Array_sort_perm.
  - apply filter_sorted. by apply (Array_sort_sorted comparefn key).
  - intros k. rewrite filter_swap, (filter_swap _ f). f_equal.
    apply Array_sort_filter. intros x y Hx Hy Hkx Hky.
    rewrite Forall_forall in Hn.
    rewrite comparefn_key, sub_negative by (by apply Hn).
    by eapply ltb_irrefl_eqb.
Qed.

(** A list that is in order is left as it is. *)
Lemma Array_sort_sorted_id l :
  Forall (keyIsNumber key) l → StronglySorted (keyOrdered key) l →
  Array_sort comparefn l = l.
Proof.
  intros Hn Hs. symmetry.
  by apply (Array_sort_unique comparefn key comparefn_key).
Qed.
End SortMore.

Section PipelineMore.
Context `{Engine}.
Implicit Types (school : School.t) (position : Position) (l : list School.t).

Lemma levelCallback_withDistance level position school :
  levelCallback level (withDistance position school) = levelCallback level school.
Proof. done. Qed.

Lemma sectorCallback_withDistance sector position school :
  sectorCallback sector (withDistance position school)
  = sectorCallback sector school.
Proof. done. Qed.

Lemma withDistance_twice position school :
  withDistance position (withDistance position school)
  = withDistance position school.
Proof. done. Qed.

Lemma ranked_keys position l :
  Forall (keyIsNumber distanceOrZero) (withDistance position <$> l).
Proof. apply Forall_fmap, Forall_true. intros school. apply withDistance_key. Qed.

(** X10.  The two filters can be applied one after the other in either
    order, or both at once, with the same result; applying the same
    filters again changes nothing; and the setting [all], [all] returns the
    list itself. *)
Theorem filters_compose l sector level :
  filtered (filtered l SectorAll level) sector LevelAll = filtered l sector level
  ∧ filtered (filtered l sector LevelAll) SectorAll level = filtered l sector level
  ∧ filtered (filtered l sector level) sector level = filtered l sector level
  ∧ filtered l SectorAll LevelAll = l.
Proof.
  unfold filtered.
  repeat split; destruct level, sector; rewrite ?filter_and; try done;
    apply filter_ext; intros school;
    repeat match goal with
    | |- context [levelCallback ?a ?b] => destruct (levelCallback a b)
    | |- context [sectorCallback ?a ?b] => destruct (sectorCallback a b)
    end; done.
Qed.

Lemma filter_true {A} (l : list A) : List.filter (fun _ => true) l = l.
Proof. induction l as [|x l IH]; simpl; by rewrite ?IH. Qed.

Lemma passes_withDistance sector level position school :
  passes sector level (withDistance position school) = passes sector level school.
Proof.
  unfold passes.
  by rewrite levelCallback_withDistance, sectorCallback_withDistance.
Qed.

Lemma filtered_as_filter l sector level :
  filtered l sector level = List.filter (passes sector level) l.
Proof.
  unfold filtered, passes.
  destruct level, sector; rewrite ?filter_and; cbn [andb].
  1: by rewrite filter_true.
  all: apply filter_ext; intros school; by rewrite ?andb_true_r.
Qed.

(** X11.  Ranking and filtering commute: filtering the ranked list gives
    the list that ranking the filtered list gives. *)
Theorem rank_then_filter l position sector level :
  filtered (schoolsWithDistances l position) sector level
  = schoolsWithDistances (filtered l sector level) position.
Proof.
  rewrite !filtered_as_filter. unfold schoolsWithDistances.
  rewrite (Array_sort_filter_swap byDistance distanceOrZero)
    by (done || apply ranked_keys).
  f_equal. rewrite filter_fmap. f_equal.
  all: apply filter_ext; intros school; apply passes_withDistance.
Qed.

(** X12.  Ranking again from the same position changes nothing. *)
Theorem rank_twice l position :
  schoolsWithDistances (schoolsWithDistances l position) position
  = schoolsWithDistances l position.
Proof.
  assert (Hperm : schoolsWithDistances l position ≡ₚ withDistance position <$> l)
    by apply Array_sort_perm.
  assert (Hfix : List.map (withDistance position) (schoolsWithDistances l position)
                 = schoolsWithDistances l position).
  { apply map_fixed. rewrite Hperm. apply Forall_fmap, Forall_true.
    intros school. apply withDistance_twice. }
  unfold schoolsWithDistances at 1. rewrite Hfix.
  apply (Array_sort_sorted_id byDistance distanceOrZero); [done| |].
  - rewrite Hperm. apply ranked_keys.
  - apply (Array_sort_sorted byDistance distanceOrZero); [done|].
    apply ranked_keys.
Qed.

(** X13.  An institution of the generic format has no name, so it passes
    no level filter: with the level set to [college] or [lycee], a file of
    the generic format shows no institution. *)
Theorem generic_schools_fail_level_filter (rows : list CSVRow) sector level :
  (∀ row, row ∈ rows → collegeFormat row = false) →
  level ≠ LevelAll →
  filtered (csvRowsToSchools rows) sector level = [].
Proof.
  intros Hgeneric Hlevel.
  assert (Hnone : Forall (fun school => School.name school = None)
                         (csvRowsToSchools rows)).
  { apply Forall_forall. intros school Hin.
    apply elem_of_csvRowsToSchools in Hin as (index & row & Hrow & Hs).
    unfold rowToSchool in Hs.
    rewrite (Hgeneric row) in Hs by by eapply list_elem_of_lookup_2.
    by apply genericRowToSchool_fields in Hs as (_ & ? & _). }
  assert (Hlevel' : List.filter (levelCallback level) (csvRowsToSchools rows) = []).
  { induction Hnone as [|school l' Hs _ IH]; [done|]. simpl.
    unfold levelCallback at 1. by rewrite Hs. }
  unfold filtered. destruct level; [done| |]; rewrite Hlevel'; by destruct sector.
Qed.
End PipelineMore.

Lemma generic_schools_fail_level_filter_witness :
  @filtered SampleEngine.engine
    (csvRowsToSchools [genericExampleRow; genericUaiRow]) SectorAll LevelCollege
  = [].
Proof.
  apply (@generic_schools_fail_level_filter SampleEngine.engine).
  - intros row Hin%list_elem_of_In. simpl in Hin.
    destruct Hin as [<-|[<-|[]]]; reflexivity.
  - discriminate.
Defined.

(** ** The handlers of the component *)

Section HandlerFacts.
Context `{Engine}.
Variable geocodeAddress : jsstring → option (number * number * option jsstring).
Implicit Types (st : AppState) (position : Position).

(** X14.  The invariant of the state: after every handler the list shown
    is the list of all institutions with the current filters applied,
    whether the handler succeeds or reports an error. *)
Theorem handlers_keep_consistent st :
  consistent st →
  (∀ newFilter, consistent (handleSectorFilterChange st newFilter))
  ∧ (∀ newFilter, consistent (handleLevelFilterChange st newFilter))
  ∧ (∀ l position, consistent (calculateDistances st l position))
  ∧ (∀ text, consistent (appState (handleFileSelect st text)))
  ∧ (∀ position,
       consistent (appState (handlePositionSet geocodeAddress st position))).
Proof.
  intros Hst. repeat split; try done.
  - intros text. unfold handleFileSelect.
    destruct (_ =? _)%nat; [done|]. destruct (_ =? _)%nat; [done|].
    by destruct (userPosition st).
  - intros position. unfold handlePositionSet.
    assert (Hlocated : ∀ finalPosition,
      consistent (appState
        (if (0 <? length (schools st))%nat
         then finished (calculateDistances
                {| schools := schools st;
                   filteredSchools := filteredSchools st;
                   userPosition := Some finalPosition;
                   sectorFilter := sectorFilter st;
                   levelFilter := levelFilter st |} (schools st) finalPosition)
         else finished {| schools := schools st;
                          filteredSchools := schools st;
                          userPosition := Some finalPosition;
                          sectorFilter := sectorFilter st;
                          levelFilter := levelFilter st |}))).
    { intros finalPosition. destruct (schools st) as [|school l] eqn:Hl; [|done].
      unfold consistent, filtered. simpl.
      by destruct (levelFilter st), (sectorFilter st). }
    destruct (_ && _); [|apply Hlocated].
    destruct (geocodeAddress _) as [[[latitude longitude] displayName]|];
      [apply Hlocated|done].
Qed.

(** X15.  A file is taken exactly when it yields at least one
    institution; otherwise an error message is set and the state stays as
    it was.  When it is taken, the institutions of the state are those of
    the file, ranked if a reference position is set. *)
Theorem handleFileSelect_outcome st text :
  let parsed := csvRowsToSchools (parseCSV text) in
  (parsed = [] →
   appState (handleFileSelect st text) = st
   ∧ is_Some (error (handleFileSelect st text)))
  ∧ (parsed ≠ [] →
     error (handleFileSelect st text) = None
     ∧ schools (appState (handleFileSelect st text))
       = match userPosition st with
         | Some position => schoolsWithDistances parsed position
         | None => parsed
         end)
  ∧ isLoading (handleFileSelect st text) = false.
Proof.
  cbv zeta. unfold handleFileSelect.
  destruct (parseCSV text) as [|row rows] eqn:Hrows.
  - change (csvRowsToSchools []) with (@nil School.t). simpl.
    split; [eauto|]. split; [|done]. intros Hne. by destruct Hne.
  - cbn [length Nat.eqb].
    destruct (csvRowsToSchools (row :: rows)) as [|school l].
    + simpl. split; [eauto|]. split; [|done]. intros Hne. by destruct Hne.
    + cbn [length Nat.eqb]. split; [done|]. split; [|by destruct (userPosition st)].
      intros _. by destruct (userPosition st).
Qed.

End HandlerFacts.

Lemma handleFileSelect_outcome_witness :
  appState (@handleFileSelect SampleEngine.engine initialState quotedDelimiterText)
  = initialState
  ∧ is_Some (error (@handleFileSelect SampleEngine.engine initialState
                      quotedDelimiterText)).
Proof.
  apply (@handleFileSelect_outcome SampleEngine.engine initialState
           quotedDelimiterText).
  vm_compute. reflexivity.
Defined.

Lemma handlers_keep_consistent_witness :
  @consistent SampleEngine.engine
    (@handleSectorFilterChange SampleEngine.engine initialState SectorPublic).
Proof.
  apply (@handlers_keep_consistent SampleEngine.engine (fun _ => None) initialState).
  reflexivity.
Defined.


(** ** Bands, classification and typed positions *)

Section PresentationFacts.
Context `{Engine}.
Implicit Types (school : School.t).

(** The three nested conditionals pick the same band. *)
Lemma band_of (b1 b5 b10 : bool) :
  ((if b1 then lit "Très proche"
    else if b5 then lit "Proche"
    else if b10 then lit "Moyennement éloigné" else lit "Éloigné"),
   (if b1 then lit "text-green-600"
    else if b5 then lit "text-blue-600"
    else if b10 then lit "text-yellow-600" else lit "text-red-600"),
   (if b1 then lit "bg-green-100 text-green-800"
    else if b5 then lit "bg-blue-100 text-blue-800"
    else if b10 then lit "bg-yellow-100 text-yellow-800"
    else lit "bg-red-100 text-red-800")) ∈ bands.
Proof.
  apply list_elem_of_In. unfold bands.
  destruct b1; [by left|]. destruct b5; [by right; left|].
  destruct b10; [by do 2 right; left|]. by do 3 right; left.
Qed.

(** X17.  The label, the text colour and the badge colour of an
    institution belong to one band, except at a distance that is 0, NaN
    or missing: there the colours are those of the nearest band and the
    label is the one of the farthest. *)
Theorem label_and_colours school :
  let shown := (distanceLabel school,
                getDistanceColor (distanceOrZero school),
                getDistanceBadgeColor (distanceOrZero school)) in
  (SFeqb (distanceOrZero school) (S754_zero false) = true
   ∧ shown = (lit "Éloigné", lit "text-green-600",
              lit "bg-green-100 text-green-800"))
  ∨ (SFeqb (distanceOrZero school) (S754_zero false) = false
     ∧ shown ∈ bands).
Proof.
  cbv zeta.
  unfold distanceLabel, truthyDistance, distanceOf, distanceOrZero,
    getDistanceColor, getDistanceBadgeColor.
  destruct (School.distance school) as [[s|s| |s m e]|];
    cbn [default orZero andb].
  - left. split; [reflexivity|]. vm_compute. reflexivity.
  - right. split; [by destruct s|]. apply band_of.
  - left. split; [reflexivity|]. vm_compute. reflexivity.
  - right. split; [by destruct s|]. apply band_of.
  - left. split; [reflexivity|]. vm_compute. reflexivity.
Qed.

(** X18.  The classification of the map and the level filter agree: an
    institution passes the filter [college] exactly when the map
    classifies it as a college; one that the map classifies as a lycée
    passes the filter [lycee]; one classified [other] passes neither. *)
Theorem getSchoolType_level_filter school :
  (levelCallback LevelCollege school = true
   ↔ getSchoolType (School.name school) = TypeCollege)
  ∧ (getSchoolType (School.name school) = TypeLycee →
     levelCallback LevelLycee school = true)
  ∧ (getSchoolType (School.name school) = TypeOther →
     levelCallback LevelCollege school = false
     ∧ levelCallback LevelLycee school = false).
Proof.
  unfold levelCallback, getSchoolType.
  destruct (truthy (School.name school)); simpl; [|by repeat split].
  destruct (includes _ (lit "collège") || includes _ (lit "college"));
    destruct (includes _ (lit "lycée") || includes _ (lit "lycee"));
    by repeat split.
Qed.
End PresentationFacts.

Lemma getSchoolType_level_filter_witness :
  @levelCallback SampleEngine.engine LevelCollege
    (School.mk 0 (Some (lit "Collège Anatole France")) None None
               (pos_latitude lille) (pos_longitude lille) (Some (lit "public"))
               None)
  = true.
Proof.
  apply (@getSchoolType_level_filter SampleEngine.engine).
  vm_compute. reflexivity.
Defined.

Section PositionFacts.
Context `{Engine}.
Variable geocodeAddress : jsstring → option (number * number * option jsstring).
Implicit Types (st : AppState) (position : Position).

Lemma bounded_is_finite lo hi x :
  isFinite lo = true → isFinite hi = true →
  leb lo x = true → leb x hi = true → isFinite x = true.
Proof.
  destruct lo as [?|?| |? ? ?], hi as [?|?| |? ? ?]; try done;
    destruct x as [?|sx| |? ? ?]; try done; by destruct sx.
Qed.

(** X19.  Coordinates typed by hand are accepted only when both parse to
    finite numbers, the latitude between -90 and 90 and the longitude
    between -180 and 180; the position handed on holds the parsed values
    and no address. *)
Theorem handleCoordinatesSubmit_range latitude longitude position :
  handleCoordinatesSubmit latitude longitude = Some position →
  position = {| pos_latitude := parseFloat latitude;
                pos_longitude := parseFloat longitude;
                pos_address := None |}
  ∧ isFinite (pos_latitude position) = true
  ∧ isFinite (pos_longitude position) = true
  ∧ leb (neg (ofZ 90)) (pos_latitude position) = true
  ∧ leb (pos_latitude position) (ofZ 90) = true
  ∧ leb (neg (ofZ 180)) (pos_longitude position) = true
  ∧ leb (pos_longitude position) (ofZ 180) = true.
Proof.
  unfold handleCoordinatesSubmit.
  destruct (_ && _) eqn:Hguard; [|done]. intros [= <-]. simpl.
  repeat (apply andb_true_iff in Hguard as [Hguard ?]).
  repeat split; try done.
  - by apply (bounded_is_finite (neg (ofZ 90)) (ofZ 90)).
  - by apply (bounded_is_finite (neg (ofZ 180)) (ofZ 180)).
Qed.

Lemma handleCoordinatesSubmit_range_witness :
  isFinite (parseFloat (lit "50.62")) = true
  ∧ handleCoordinatesSubmit (lit "Infinity") (lit "3.1") = None.
Proof.
  split; [|vm_compute; reflexivity].
  destruct (handleCoordinatesSubmit_range (lit "50.62") (lit "3.1")
              {| pos_latitude := parseFloat (lit "50.62");
                 pos_longitude := parseFloat (lit "3.1");
                 pos_address := None |}) as (_ & Hfinite & _).
  - vm_compute. reflexivity.
  - exact Hfinite.
Defined.

(** X20.  Typed coordinates are used as they are, the geocoder is not
    consulted; a typed address always goes to the geocoder, and when that
    finds nothing the handler reports an error and leaves the state as it
    was. *)
Theorem position_sources st :
  (∀ latitude longitude position,
     handleCoordinatesSubmit latitude longitude = Some position →
     error (handlePositionSet geocodeAddress st position) = None
     ∧ userPosition (appState (handlePositionSet geocodeAddress st position))
       = Some position)
  ∧ (∀ address position,
       handleAddressSubmit address = Some position →
       match geocodeAddress (trim address) with
       | None =>
           handlePositionSet geocodeAddress st position
           = failed st (lit "Impossible de géolocaliser cette adresse")
       | Some (latitude, longitude, displayName) =>
           error (handlePositionSet geocodeAddress st position) = None
           ∧ userPosition (appState (handlePositionSet geocodeAddress st position))
             = Some {| pos_latitude := latitude;
                       pos_longitude := longitude;
                       pos_address := displayName |}
       end).
Proof.
  split.
  - intros latitude longitude position.
    unfold handleCoordinatesSubmit. destruct (_ && _); [|done].
    intros [= <-]. unfold handlePositionSet. simpl.
    by destruct (0 <? length (schools st))%nat.
  - intros address position. unfold handleAddressSubmit.
    destruct (truthy (Some (trim address))) eqn:Htruthy; [|done].
    intros [= <-]. unfold handlePositionSet.
    cbn [pos_address pos_latitude pos_longitude isZero default from_option id].
    rewrite Htruthy. cbn [andb].
    destruct (geocodeAddress (trim address))
      as [[[latitude longitude] displayName]|]; [|done].
    by destruct (0 <? length (schools st))%nat.
Qed.
End PositionFacts.

Lemma position_sources_witness :
  @handlePositionSet SampleEngine.engine (fun _ => None) initialState
    {| pos_latitude := S754_zero false;
       pos_longitude := S754_zero false;
       pos_address := Some (lit "Lille") |}
  = failed initialState (lit "Impossible de géolocaliser cette adresse").
Proof.
  apply (proj2 (@position_sources SampleEngine.engine (fun _ => None) initialState)
               (lit " Lille ")).
  vm_compute. reflexivity.
Defined.

(** ** The export *)

Section ExportFacts.
Variable Number_toString : number → jsstring.
Implicit Types (s t : jsstring) (school : School.t).

Lemma trimStart_id s : startsWithWS s = false → trimStart s = s.
Proof. destruct s as [|c s]; [done|]. simpl. by intros ->. Qed.

(** A text without white space at its ends is its own trimming. *)
Lemma trim_id s : startsWithWS s = false → endsWithWS s = false → trim s = s.
Proof.
  intros Hstart Hend. unfold trim, trimEnd.
  rewrite (trimStart_id s Hstart), (trimStart_id (rev s) Hend).
  apply rev_involutive.
Qed.

Lemma split_app_sep sep s rest :
  sep ∉ s → split sep (s ++ sep :: rest) = s :: split sep rest.
Proof.
  induction s as [|c s IH]; intros Hs; simpl.
  - by rewrite N.eqb_refl.
  - apply not_elem_of_cons in Hs as [Hc Hs].
    replace (c =? sep) with false by (symmetry; apply N.eqb_neq; congruence).
    by rewrite IH.
Qed.

Lemma join_ends_with sep c (parts : list jsstring) :
  parts ≠ [] →
  Forall (fun part => ∃ body, part = body ++ [c]) parts →
  ∃ body, join sep parts = body ++ [c].
Proof.
  intros Hne Hall. induction Hall as [|part parts [body ->] Hall IH]; [done|].
  destruct parts as [|part' parts]; [by exists body|].
  destruct IH as [body' Hjoin]; [done|].
  exists ((body ++ [c]) ++ sep ++ body').
  by rewrite join_cons, <- !app_assoc, <- Hjoin.
Qed.

Lemma exportRow_ends_with_dquote index school :
  ∃ body, exportRow Number_toString index school = body ++ [char_dquote].
Proof. unfold exportRow. eexists. rewrite !app_assoc. reflexivity. Qed.

(** The exported text: it is its own trimming, and its first line is the
    header. *)
Lemma exportResults_shape (schools : list School.t) content :
  exportResults Number_toString schools = Some content →
  trim content = content
  ∧ ∃ rest, content = exportHeader ++ char_newline :: rest.
Proof.
  unfold exportResults. destruct schools as [|school schools]; [done|].
  cbn [length Nat.eqb].
  remember (join [char_newline] _) as text eqn:Htext. intros [= <-].
  rewrite imap_cons, join_cons in Htext. subst text.
  split; [|by eexists].
  apply trim_id; [done|].
  destruct (join_ends_with [char_newline] char_dquote
              (exportRow Number_toString 0 school
                 :: imap (exportRow Number_toString ∘ S) schools))
    as [body Hbody]; [done| |].
  - apply Forall_forall. intros part Hpart.
    apply elem_of_cons in Hpart as [->|Hpart];
      [apply exportRow_ends_with_dquote|].
    apply elem_of_lookup_imap in Hpart as (i & school' & -> & _).
    apply exportRow_ends_with_dquote.
  - rewrite Hbody. unfold endsWithWS.
    by rewrite !app_assoc, rev_app_distr.
Qed.

(** X21.  The exported file cannot be read back: its delimiter is the
    comma, so the parser sees one column, named by the whole header line,
    and the normaliser finds no institution in it.  With no institution
    nothing is exported. *)
Theorem export_is_not_importable (schools : list School.t) :
  exportResults Number_toString [] = None
  ∧ ∀ content,
      exportResults Number_toString schools = Some content →
      headersOf content = [exportHeader]
      ∧ csvRowsToSchools (parseCSV content) = [].
Proof.
  split; [done|]. intros content Hcontent.
  apply exportResults_shape in Hcontent as (Htrim & rest & Hrest).
  assert (Hheaders : headersOf content = [exportHeader]).
  { unfold headersOf. rewrite Htrim, Hrest, split_app_sep.
    - vm_compute. reflexivity.
    - intros Hin%list_elem_of_In. vm_compute in Hin. intuition discriminate. }
  split; [done|].
  apply no_column_no_school; rewrite Hheaders.
  - intros key Hkey%list_elem_of_In Hin%list_elem_of_singleton.
    vm_compute in Hkey, Hin.
    repeat (destruct Hkey as [<-|Hkey]; [discriminate|]). done.
  - left. intros Hin%list_elem_of_singleton. vm_compute in Hin. discriminate.
Qed.
End ExportFacts.

Lemma export_is_not_importable_witness :
  ∃ content,
    exportResults (fun x => SampleEngine.toFixed x 2) sampleSchools = Some content
    ∧ csvRowsToSchools (parseCSV content) = [].
Proof.
  destruct (exportResults (fun x => SampleEngine.toFixed x 2) sampleSchools)
    as [content|] eqn:Hcontent; [|vm_compute in Hcontent; discriminate].
  exists content. split; [done|].
  by apply (proj2 (export_is_not_importable
                     (fun x => SampleEngine.toFixed x 2) sampleSchools)).
Defined.

(** ** The distance between a point and itself *)

Section SamePoint.
Context `{Engine}.

Lemma sub_self x : isFinite x = true → sub x x = S754_zero false.
Proof.
  destruct x as [s|s| |s m e]; try done; intros _.
  - by destruct s.
  - unfold sub, SFsub. by rewrite Z.sub_diag.
Qed.

Lemma mul_zero_r x s :
  isFinite x = true → ∃ s', mul x (S754_zero s) = S754_zero s'.
Proof. destruct x as [sx|sx| |sx m e]; try done; intros _; simpl; eauto. Qed.

Hypothesis Math_sin_zero : Math_sin (S754_zero false) = S754_zero false.
Hypothesis Math_atan2_zero :
  Math_atan2 (S754_zero false) (ofZ 1) = S754_zero false.
Hypothesis Number_toFixed_zero : Number_toFixed (S754_zero false) 2 = lit "0.00".

(** X22.  The distance from a point to itself is 0, for every point with
    finite coordinates, on an engine that gives the values the language
    fixes at zero ([Math.sin(0)] is 0, [Math.atan2(0, 1)] is 0,
    [(0).toFixed(2)] is 0.00) and whose cosine of the latitude has a
    finite square. *)
Theorem calculateDistance_same_point lat lon :
  isFinite lat = true → isFinite lon = true →
  isFinite (mul (Math_cos (toRadians lat)) (Math_cos (toRadians lat))) = true →
  calculateDistance lat lon lat lon = S754_zero false.
Proof.
  intros Hlat Hlon Hcos. unfold calculateDistance.
  rewrite !sub_self by done.
  change (toRadians (S754_zero false)) with (S754_zero false).
  change (div (S754_zero false) (ofZ 2)) with (S754_zero false).
  rewrite Math_sin_zero.
  destruct (mul_zero_r _ false Hcos) as [s' ->].
  assert (add (mul (S754_zero false) (S754_zero false))
              (mul (S754_zero s') (S754_zero false)) = S754_zero false) as ->
    by by destruct s'.
  change (sqrt (S754_zero false)) with (S754_zero false).
  assert (sqrt (sub (ofZ 1) (S754_zero false)) = ofZ 1) as ->
    by (vm_compute; reflexivity).
  rewrite Math_atan2_zero.
  change (mul (ofZ 6371) (mul (ofZ 2) (S754_zero false))) with (S754_zero false).
  rewrite Number_toFixed_zero. vm_compute. reflexivity.
Qed.
End SamePoint.

Lemma calculateDistance_same_point_witness :
  @calculateDistance SampleEngine.engine
    (pos_latitude lille) (pos_longitude lille)
    (pos_latitude lille) (pos_longitude lille)
  = S754_zero false.
Proof.
  apply (@calculateDistance_same_point SampleEngine.engine);
    vm_compute; reflexivity.
Defined.

(** ** Rows are normalised one by one *)

Section RowsIndependent.
Local Open Scope nat_scope.
Implicit Types (row : CSVRow) (rows : list CSVRow) (school : School.t).

(** The position of a row only decides the id. *)
Lemma rowToSchool_withId row i j :
  rowToSchool row j = withId j <$> rowToSchool row i.
Proof.
  unfold rowToSchool, collegeRowToSchool, genericRowToSchool.
  destruct (collegeFormat row).
  - destruct (split _ _) as [|part0 [|part1 [|? ?]]]; try done.
    by destruct (isNaN _ || isNaN _).
  - destruct (List.find _ genericLatKeys); [|done].
    destruct (List.find _ genericLonKeys); [|done].
    destruct (List.find _ genericNameKeys); [|done].
    by destruct (isNaN _ || isNaN _).
Qed.

Lemma schools_from_shift rows k start :
  omap (fun s => s)
       (imap (fun index row => rowToSchool row (k + (start + index))) rows)
  = (fun school => withId (k + School.id school) school)
      <$> omap (fun s => s)
               (imap (fun index row => rowToSchool row (start + index)) rows).
Proof.
  revert start. induction rows as [|row rows IH]; intros start; [done|].
  rewrite !imap_cons. cbn [omap list_omap].
  rewrite (imap_ext _ (fun index row => rowToSchool row (k + (S start + index))))
    by (intros; simpl; do 2 f_equal; lia).
  rewrite (imap_ext (_ ∘ S) (fun index row => rowToSchool row (S start + index)))
    by (intros; simpl; f_equal; lia).
  specialize (IH (S start)). cbn [omap] in IH. rewrite IH.
  rewrite (rowToSchool_withId row (start + 0) (k + (start + 0))).
  destruct (rowToSchool row (start + 0)) as [school|] eqn:Hs; [|done].
  cbn [fmap option_fmap option_map]. rewrite fmap_cons.
  by rewrite (rowToSchool_id _ _ _ Hs).
Qed.

(** X23.  Rows are normalised independently of one another: the
    institutions of two row sequences put end to end are those of the
    first, followed by those of the second with their ids moved up by the
    length of the first. *)
Theorem csvRowsToSchools_app rows1 rows2 :
  csvRowsToSchools (rows1 ++ rows2)
  = csvRowsToSchools rows1
    ++ ((fun school => withId (length rows1 + School.id school) school)
          <$> csvRowsToSchools rows2).
Proof.
  unfold csvRowsToSchools. rewrite imap_app, omap_app. f_equal.
  pose proof (schools_from_shift rows2 (length rows1) 0) as Hshift.
  simpl in Hshift. exact Hshift.
Qed.
End RowsIndependent.

(** ** The ids stay distinct *)

Section KeysDistinct.
Context `{Engine}.
Variable geocodeAddress : jsstring → option (number * number * option jsstring).
Implicit Types (st : AppState) (position : Position) (l : list School.t).

Lemma ids_filter (f : School.t → bool) l :
  NoDup (School.id <$> l) → NoDup (School.id <$> List.filter f l).
Proof.
  induction l as [|school l IH]; [done|]. simpl.
  rewrite NoDup_cons. intros [Hnotin Hl]. destruct (f school); [|by apply IH].
  rewrite fmap_cons. apply NoDup_cons. split; [|by apply IH].
  intros (school' & Hid & Hin)%list_elem_of_fmap. apply Hnotin.
  apply list_elem_of_fmap. exists school'. split; [done|].
  apply list_elem_of_In. apply list_elem_of_In in Hin.
  by apply filter_In in Hin as [? _].
Qed.

Lemma ids_filtered l sector level :
  NoDup (School.id <$> l) → NoDup (School.id <$> filtered l sector level).
Proof. rewrite filtered_as_filter. apply ids_filter. Qed.

Lemma ids_ranked l position :
  NoDup (School.id <$> l) → NoDup (School.id <$> schoolsWithDistances l position).
Proof.
  intros Hl.
  assert (Hperm : schoolsWithDistances l position ≡ₚ withDistance position <$> l)
    by apply Array_sort_perm.
  rewrite Hperm, <- list_fmap_compose. exact Hl.
Qed.

Lemma ids_csvRowsToSchools (rows : list CSVRow) :
  NoDup (School.id <$> csvRowsToSchools rows).
Proof.
  destruct (ids_from_sorted rows 0) as [Hsorted _]. simpl in Hsorted.
  unfold csvRowsToSchools.
  induction Hsorted as [|i ids _ IH Hall]; constructor; [|done].
  intros Hin. rewrite Forall_forall in Hall. apply Hall in Hin. lia.
Qed.

Lemma ids_calculateDistances st l position :
  NoDup (School.id <$> l) → ids_distinct (calculateDistances st l position).
Proof.
  intros Hl. split; simpl; [|apply ids_filtered]; by apply ids_ranked.
Qed.

(** X24.  The ids of the institutions, which the list and the map use as
    keys, stay pairwise distinct: every handler, and the initial load,
    takes a state whose two lists have distinct ids to such a state. *)
Theorem handlers_keep_ids_distinct st :
  ids_distinct st →
  (∀ newFilter, ids_distinct (handleSectorFilterChange st newFilter))
  ∧ (∀ newFilter, ids_distinct (handleLevelFilterChange st newFilter))
  ∧ (∀ text, ids_distinct (appState (handleFileSelect st text)))
  ∧ (∀ position,
       ids_distinct (appState (handlePositionSet geocodeAddress st position)))
  ∧ (∀ text, ids_distinct (appState (loadInitialData st text))).
Proof.
  intros [Hschools Hshown]. split_and!.
  - intros newFilter. split; simpl; [done|by apply ids_filtered].
  - intros newFilter. split; simpl; [done|by apply ids_filtered].
  - intros text. unfold handleFileSelect.
    destruct (_ =? _)%nat; [done|]. destruct (_ =? _)%nat; [done|].
    destruct (userPosition st).
    + apply ids_calculateDistances, ids_csvRowsToSchools.
    + split; simpl; [|apply ids_filtered]; apply ids_csvRowsToSchools.
  - intros position. unfold handlePositionSet.
    assert (Hlocated : ∀ finalPosition,
      ids_distinct (appState
        (if (0 <? length (schools st))%nat
         then finished (calculateDistances
                {| schools := schools st;
                   filteredSchools := filteredSchools st;
                   userPosition := Some finalPosition;
                   sectorFilter := sectorFilter st;
                   levelFilter := levelFilter st |} (schools st) finalPosition)
         else finished {| schools := schools st;
                          filteredSchools := schools st;
                          userPosition := Some finalPosition;
                          sectorFilter := sectorFilter st;
                          levelFilter := levelFilter st |}))).
    { intros finalPosition. destruct (0 <? length (schools st))%nat.
      - by apply ids_calculateDistances.
      - by split. }
    destruct (_ && _); [|apply Hlocated].
    destruct (geocodeAddress _) as [[[latitude longitude] displayName]|];
      [apply Hlocated|done].
  - intros text. unfold loadInitialData.
    destruct (_ =? _)%nat; [done|]. destruct (_ =? _)%nat; [done|].
    split; simpl; [done|].
    destruct (sectorFilter st); repeat apply ids_filter;
      apply ids_csvRowsToSchools.
Qed.
End KeysDistinct.

Lemma handlers_keep_ids_distinct_witness :
  ids_distinct
    (appState (@handleFileSelect SampleEngine.engine initialState generateSampleCSV)).
Proof.
  destruct (@handlers_keep_ids_distinct SampleEngine.engine (fun _ => None)
              initialState) as (_ & _ & Hfile & _).
  - split; constructor.
  - exact (Hfile generateSampleCSV).
Defined.

(** ** The order of the user's actions *)

Section ActionOrder.
Context `{Engine}.
Variable geocodeAddress : jsstring → option (number * number * option jsstring).
Implicit Types (st : AppState) (position : Position).

(** X25.  The two filters are set independently and undo nothing: setting
    the sector and then the level gives the state that setting the level
    and then the sector gives; neither touches the list of all
    institutions or the reference position; and setting both back to
    [all] shows the list of all institutions again. *)
Theorem filter_changes_commute st sector level :
  handleLevelFilterChange (handleSectorFilterChange st sector) level
  = handleSectorFilterChange (handleLevelFilterChange st level) sector
  ∧ schools (handleSectorFilterChange st sector) = schools st
  ∧ schools (handleLevelFilterChange st level) = schools st
  ∧ userPosition (handleLevelFilterChange (handleSectorFilterChange st sector) level)
    = userPosition st
  ∧ filteredSchools
      (handleLevelFilterChange
         (handleSectorFilterChange
            (handleLevelFilterChange (handleSectorFilterChange st sector) level)
            SectorAll)
         LevelAll)
    = schools st.
Proof. done. Qed.

(** X26.  From a state without a reference position, loading a file and
    then setting a position gives the state that setting the position and
    then loading the file gives, for a file with at least one institution
    and a position that is located: the institutions of the file ranked
    from that position. *)
Theorem file_and_position_commute st text position :
  userPosition st = None →
  csvRowsToSchools (parseCSV text) ≠ [] →
  error (handlePositionSet geocodeAddress st position) = None →
  appState (handlePositionSet geocodeAddress
              (appState (handleFileSelect st text)) position)
  = appState (handleFileSelect
                (appState (handlePositionSet geocodeAddress st position)) text)
  ∧ ∃ finalPosition,
      userPosition (appState (handlePositionSet geocodeAddress st position))
      = Some finalPosition
      ∧ schools (appState (handleFileSelect
                   (appState (handlePositionSet geocodeAddress st position)) text))
        = schoolsWithDistances (csvRowsToSchools (parseCSV text)) finalPosition.
Proof.
  intros Hnone Hparsed Hlocated.
  unfold handleFileSelect. rewrite Hnone.
  destruct (parseCSV text) as [|row rows] eqn:Hrows; [done|].
  cbn [length Nat.eqb].
  destruct (csvRowsToSchools (row :: rows)) as [|school l] eqn:Hschools; [done|].
  cbn [length Nat.eqb]. clear Hparsed.
  revert Hlocated. unfold handlePositionSet.
  destruct (_ && _);
    [destruct (geocodeAddress _) as [[[latitude longitude] displayName]|];
       [|done]|];
    intros _; destruct (schools st) as [|school0 l0];
    cbn [finished appState schools filteredSchools userPosition sectorFilter
         levelFilter applyFilters calculateDistances length Nat.ltb Nat.leb];
    (split; [reflexivity|by eexists]).
Qed.
End ActionOrder.

Lemma file_and_position_commute_witness :
  schools
    (appState
       (@handleFileSelect SampleEngine.engine
          (appState (@handlePositionSet SampleEngine.engine (fun _ => None)
                       initialState lille))
          generateSampleCSV))
  = @schoolsWithDistances SampleEngine.engine sampleSchools lille.
Proof.
  destruct (@file_and_position_commute SampleEngine.engine (fun _ => None)
              initialState generateSampleCSV lille)
    as (_ & finalPosition & Hposition & Hschools).
  - reflexivity.
  - vm_compute. discriminate.
  - reflexivity.
  - injection Hposition as <-. exact Hschools.
Defined.

(** ** Short data lines *)

Section ShortLines.
Local Open Scope nat_scope.
Implicit Types (line : jsstring) (sep : N).

Lemma parseCSVLine_from_length line sep result current inQuotes :
  length (parseCSVLine_from line [sep] result current inQuotes)
  ≤ length result + S (countChar sep line).
Proof.
  revert result current inQuotes.
  induction line as [|char rest IH]; intros result current inQuotes.
  - cbn [parseCSVLine_from]. rewrite length_app. simpl. lia.
  - cbn [parseCSVLine_from]. rewrite countChar_cons.
    destruct (N.eqb char char_dquote).
    { etrans; [apply IH|]. lia. }
    case_bool_decide as Hsep; destruct inQuotes; cbn [andb negb].
    all: try (etrans; [apply IH|]; lia).
    etrans; [apply IH|]. rewrite length_app.
    assert (char = sep) as -> by congruence.
    rewrite N.eqb_refl. simpl. lia.
Qed.

(** X27.  A data line with fewer semicolons than the header has columns,
    less one, yields no mapping: every mapping comes from a data line that
    holds at least as many semicolons as there are columns, less one.  A
    blank line between the data lines is therefore skipped as soon as the
    header has two columns. *)
Theorem parseCSV_short_line_dropped csvText row :
  row ∈ parseCSV csvText →
  ∃ line,
    line ∈ dataLines csvText
    ∧ row = fillRow ∅ (headersOf csvText) (parseCSVLine line [char_semicolon])
    ∧ length (headersOf csvText) ≤ S (countChar char_semicolon line)
    ∧ (2 ≤ length (headersOf csvText) → line ≠ []).
Proof.
  intros (line & Hline & Hlength & Hrow)%parseCSV_unfold.
  exists line. split_and!; [done|done| |].
  - rewrite <- Hlength. apply (parseCSVLine_from_length line _ [] [] false).
  - intros Htwo ->. rewrite <- Hlength in Htwo. simpl in Htwo. lia.
Qed.
End ShortLines.

Lemma parseCSV_short_line_dropped_witness :
  ∃ line,
    line ∈ dataLines quotedDelimiterText
    ∧ ({[ lit "a" := lit "x;y"; lit "b" := lit "z" ]} : CSVRow)
      = fillRow ∅ (headersOf quotedDelimiterText)
                (parseCSVLine line [char_semicolon])
    ∧ (length (headersOf quotedDelimiterText)
       ≤ S (countChar char_semicolon line))%nat
    ∧ ((2 ≤ length (headersOf quotedDelimiterText))%nat → line ≠ []).
Proof.
  apply (parseCSV_short_line_dropped quotedDelimiterText).
  assert (parseCSV quotedDelimiterText
          = [ {[ lit "a" := lit "x;y"; lit "b" := lit "z" ]} ]) as ->
    by (vm_compute; reflexivity).
  by left.
Defined.
